(** * Scoped thread ownership: thread_guard, scoped_thread, joining_thread

    A verification development for "02- Managing Threads.cpp".  The three
    wrapper classes of the file (thread_guard, lines 113-132; scoped_thread,
    lines 271-287; joining_thread, lines 298-361) are embedded as functions
    over an explicit world: the memory the workers write to, the table of
    workers the runtime has started, the std::thread objects of the program
    and a log of the joins and detaches performed.

    Exceptions are an outcome of their own, std::terminate is another one, so
    that "never terminates the process" is something the theorems say. *)

From Stdlib Require Import ZArith Lia.
From stdpp Require Import base option list list_numbers strings.

Local Open Scope nat_scope.

(** ** Identifiers *)

(** A worker is named by its index in the runtime's table, a memory cell by
    its index in the memory, a std::thread object by its index among the
    objects of the program. *)
Abbreviation tid := nat (only parsing).
Abbreviation loc := nat (only parsing).
Abbreviation addr := nat (only parsing).

(** The value of a std::thread object: the worker it is associated with, or
    nothing (default constructed, moved from, joined or detached). *)
Abbreviation thread := (option nat) (only parsing).

(** ** Exceptions *)

Inductive errc : Set :=
| invalid_argument
| resource_deadlock_would_occur.

Inductive exn : Set :=
| system_error (c : errc)
| logic_error (what : string)
| other_error (code : nat).

(** The exception of line 279. *)
Definition InvalidHandle : exn := logic_error "No thread".

(** What std::thread::join and std::thread::detach throw on a thread that is
    not joinable. *)
Definition NotJoinable : exn := system_error invalid_argument.

(** ** Workers *)

(** A callable is a finite sequence of atomic assignments to its parameters:
    [target] is the index of the parameter written, [compute] the new value
    from the current values of all parameters. *)
Record instr : Type := Instr { target : nat; compute : list Z -> Z }.

Abbreviation callable := (list instr) (only parsing).

(** An argument as written at the call site: an lvalue of the caller
    ([by_value], as [data] on line 206), a temporary ([temporary], as [3] on
    line 185) or an lvalue under the marker ([std_ref], line 212). *)
Inductive arg : Set :=
| by_value (l : loc)
| temporary (v : Z)
| std_ref (l : loc).

Record worker : Type := Worker {
  w_code : list instr;      (* what is left to run *)
  w_env : list loc;         (* the cells its parameters are bound to *)
  w_detached : bool         (* ownership passed to the runtime *)
}.

Inductive event : Set :=
| ev_join (t : tid)
| ev_detach (t : tid).

Record world : Type := World {
  mem : list Z;
  workers : list worker;
  objs : list thread;
  log : list event
}.

Definition empty_world : world := World [] [] [] [].

Definition set_mem (m : list Z) (w : world) : world :=
  World m (workers w) (objs w) (log w).
Definition set_workers (ws : list worker) (w : world) : world :=
  World (mem w) ws (objs w) (log w).
Definition set_objs (os : list thread) (w : world) : world :=
  World (mem w) (workers w) os (log w).
Definition add_event (e : event) (w : world) : world :=
  World (mem w) (workers w) (objs w) (e :: log w).

(** The value of the object at [a]; an address that names no object reads as
    an empty thread. *)
Definition get (a : addr) (w : world) : thread := objs w !!! a.

Definition set_obj (a : addr) (v : thread) (w : world) : world :=
  set_objs (<[a := v]> (objs w)) w.

Definition new_obj (v : thread) (w : world) : addr * world :=
  (length (objs w), set_objs (objs w ++ [v]) w).

(** ** The scheduler *)

Definition exec_instr (env : list loc) (i : instr) (m : list Z) : list Z :=
  match env !! target i with
  | Some l => <[l := compute i ((fun x => m !!! x) <$> env)]> m
  | None => m
  end.

Definition run_code (env : list loc) (code : list instr) (m : list Z) : list Z :=
  foldl (fun m' i => exec_instr env i m') m code.

(** One step of worker [t]; nothing happens when it has finished. *)
Definition sched (t : tid) (w : world) : world :=
  match workers w !! t with
  | Some wk =>
      match w_code wk with
      | i :: rest =>
          set_workers (<[t := Worker rest (w_env wk) (w_detached wk)]> (workers w))
            (set_mem (exec_instr (w_env wk) i (mem w)) w)
      | [] => w
      end
  | None => w
  end.

(** Worker [t] runs until its callable returns. *)
Definition finish (t : tid) (w : world) : world :=
  match workers w !! t with
  | Some wk =>
      set_workers (<[t := Worker [] (w_env wk) (w_detached wk)]> (workers w))
        (set_mem (run_code (w_env wk) (w_code wk) (mem w)) w)
  | None => w
  end.

Definition remaining (t : tid) (w : world) : nat :=
  match workers w !! t with
  | Some wk => length (w_code wk)
  | None => 0
  end.

Definition completed (t : tid) (w : world) : Prop :=
  exists wk, workers w !! t = Some wk /\ w_code wk = [].

(** ** Outcomes *)

Inductive outcome (A : Type) : Type :=
| Ok (a : A) (w : world)
| Throw (e : exn) (w : world)
| Terminate.
Arguments Ok {A} a w.
Arguments Throw {A} e w.
Arguments Terminate {A}.

Definition M (A : Type) : Type := world -> outcome A.

#[global] Instance M_ret : MRet M := fun A a w => Ok a w.

#[global] Instance M_bind : MBind M := fun A B k m w =>
  match m w with
  | Ok a w' => k a w'
  | Throw e w' => Throw e w'
  | Terminate => Terminate
  end.

Definition throw {A} (e : exn) : M A := fun w => Throw e w.

(** A function declared noexcept: an exception that reaches its boundary
    calls std::terminate. *)
Definition noexcept {A} (m : M A) : M A :=
  fun w =>
    match m w with
    | Throw _ _ => Terminate
    | r => r
    end.

(** [if (c) m;] *)
Definition when (c : bool) (m : M unit) : M unit :=
  if c then m else mret tt.

(** A read of the world that changes nothing. *)
Definition query {A} (f : world -> A) : M A := fun w => Ok (f w) w.

(** A new object holding [v]; its address is the result. *)
Definition alloc (v : thread) : M addr := fun w =>
  Ok (new_obj v w).1 (new_obj v w).2.

(** ** std::thread *)

(** The class std::thread of the header <thread>, which every wrapper holds
    and calls, belongs to the C++ standard library: its definition is not
    part of the sources.  The operations below are written from what the
    specification says of the primitive; the comments of the source (lines
    76-79, 146-148, 180, 206-211, 232-242) and ISO C++ [thread.thread.class]
    say the same.  Three assumptions are built in: the calling thread of
    control is never one of the workers, every callable returns after
    finitely many steps, and the runtime can always start a worker. *)
Module std_thread.

(** Modelled from the spec: the capture of one argument by the constructor
    of std::thread, which is not under src/ ("arguments are captured by value
    by default; an explicit marker is required to pass a mutable reference";
    lines 180 and 206-212 of the source).  The parameter is a cell of the
    worker's own holding a copy, unless the argument is marked. *)
Definition bind_arg (a : arg) (m : list Z) : loc * list Z :=
  match a with
  | by_value l => (length m, m ++ [m !!! l])
  | temporary v => (length m, m ++ [v])
  | std_ref l => (l, m)
  end.

(** The arguments are captured from left to right. *)
Fixpoint bind_args (args : list arg) (m : list Z) : list loc * list Z :=
  match args with
  | [] => ([], m)
  | a :: rest =>
      let '(l, m1) := bind_arg a m in
      let '(ls, m2) := bind_args rest m1 in
      (l :: ls, m2)
  end.

(** Modelled from the spec: the constructor [std::thread(f, args...)], not
    under src/ ("launches a new unit of execution running the callable
    applied to the arguments; it begins immediately").  The result is the
    value of the new thread object. *)
Definition ctor (f : callable) (args : list arg) : M thread := fun w =>
  let '(env, m) := bind_args args (mem w) in
  Ok (Some (length (workers w)))
     (set_workers (workers w ++ [Worker f env false]) (set_mem m w)).

(** Modelled from the spec: std::thread::joinable, not under src/ ("a worker
    that is either still running or finished but not yet resolved"). *)
Definition joinable (this : addr) (w : world) : bool :=
  match get this w with
  | Some _ => true
  | None => false
  end.

(** Modelled from the spec: std::thread::join, not under src/ ("blocks the
    calling thread of control until the owned worker finishes; transitions
    the handle to absent; fails if no worker is owned or it was already
    resolved", the handle being left unchanged).  The exception is
    std::system_error with std::errc::invalid_argument. *)
Definition join (this : addr) : M unit := fun w =>
  match get this w with
  | Some t => Ok tt (add_event (ev_join t) (set_obj this None (finish t w)))
  | None => Throw NotJoinable w
  end.

(** The runtime takes the worker over. *)
Definition hand_over (t : tid) (w : world) : world :=
  set_workers
    (alter (fun wk => Worker (w_code wk) (w_env wk) true) t (workers w)) w.

(** Modelled from the spec: std::thread::detach, not under src/ ("detaches
    the worker so it continues running independently; the handle transitions
    to absent and the runtime environment becomes responsible for eventual
    reclamation"; it fails as join does). *)
Definition detach (this : addr) : M unit := fun w =>
  match get this w with
  | Some t => Ok tt (add_event (ev_detach t) (set_obj this None (hand_over t w)))
  | None => Throw NotJoinable w
  end.

(** Modelled from the spec: the move constructor of std::thread, not under
    src/ ("transferring is an explicit operation that empties the source").
    [std::move(other)] is bound to a parameter or a new object: the value
    leaves [other]. *)
Definition move_from (other : addr) : M thread := fun w =>
  Ok (get other w) (set_obj other None w).

(** Modelled from the spec: the move assignment of std::thread, not under
    src/ (the raw primitive "terminates the process on misuse"; line 242 of
    the source: std::terminate when [*this] still has a worker). *)
Definition move_assign (this other : addr) : M unit := fun w =>
  if joinable this w then Terminate
  else Ok tt (set_obj this (get other w) (set_obj other None w)).

(** The same from a parameter passed by value. *)
Definition assign (this : addr) (other : thread) : M unit := fun w =>
  if joinable this w then Terminate
  else Ok tt (set_obj this other w).

(** std::thread::swap: the two objects exchange what they are associated
    with. *)
Definition swap (this other : addr) : M unit := fun w =>
  Ok tt (set_obj other (get this w) (set_obj this (get other w) w)).

(** [~thread()]: std::terminate when the thread is still joinable. *)
Definition dtor (this : addr) : M unit := fun w =>
  if joinable this w then Terminate else Ok tt w.

End std_thread.

(** ** thread_guard (lines 113-132) *)

Module thread_guard.

(** The guard holds a reference to a thread it does not own. *)
Record guard : Set := Guard { t : addr }.

(** Line 118. *)
Definition ctor (t_ : addr) : guard := Guard t_.

(** Lines 120-126; a destructor is noexcept. *)
Definition dtor (g : guard) : M unit :=
  noexcept (b ← query (std_thread.joinable (t g));
            when b (std_thread.join (t g))).

End thread_guard.

(** ** scoped_thread (lines 271-287) *)

Module scoped_thread.

(** Lines 276-280: the member takes the thread, then the check; when the
    constructor throws, the object never comes to exist and its member,
    which holds no worker, goes with it. *)
Definition ctor (t_ : thread) : M addr := fun w =>
  let '(this, w1) := new_obj t_ w in
  if negb (std_thread.joinable this w1) then Throw InvalidHandle w
  else Ok this w1.

(** Lines 281-284, then the destructor of the member. *)
Definition dtor (this : addr) : M unit :=
  noexcept (std_thread.join this) ;; std_thread.dtor this.

End scoped_thread.

(** ** joining_thread (lines 298-361) *)

Module joining_thread.

(** Line 342. *)
Definition joinable (this : addr) (w : world) : bool :=
  std_thread.joinable this w.

(** Line 346. *)
Definition join (this : addr) : M unit := std_thread.join this.

(** Line 350. *)
Definition detach (this : addr) : M unit := std_thread.detach this.

(** Line 301. *)
Definition default_ctor : M addr := noexcept (alloc None).

(** Lines 302-305. *)
Definition ctor (func : callable) (args : list arg) : M addr :=
  v ← std_thread.ctor func args; alloc v.

(** Lines 307-309: any thread is taken, joinable or not. *)
Definition adopt (t_ : thread) : M addr := noexcept (alloc t_).

(** Lines 311-313. *)
Definition move_ctor (other : addr) : M addr :=
  noexcept (v ← std_thread.move_from other; alloc v).

(** Lines 315-320. *)
Definition move_assign (this other : addr) : M unit :=
  noexcept (b ← query (joinable this);
            when b (join this) ;;
            std_thread.move_assign this other).

(** Lines 322-327. *)
Definition assign (this : addr) (other : thread) : M unit :=
  noexcept (b ← query (joinable this);
            when b (join this) ;;
            std_thread.assign this other).

(** Lines 329-332, then the destructor of the member. *)
Definition dtor (this : addr) : M unit :=
  noexcept (b ← query (joinable this); when b (join this)) ;;
  std_thread.dtor this.

(** Lines 334-336. *)
Definition swap (this other : addr) : M unit :=
  noexcept (std_thread.swap this other).

(** Lines 354-360: the member itself. *)
Definition as_thread (this : addr) : addr := this.

End joining_thread.

(** ** Scopes of joining_thread handles *)

(** The statements of a function body whose locals are joining_thread
    objects.  A declaration adds an object; the others name objects by
    address.  [s_sched] is the runtime giving a worker one step between two
    statements of the caller; [s_throw] is a call such as
    [do_something_in_current_thread()] (lines 97 and 140) that throws. *)
Inductive stmt : Type :=
| s_default
| s_ctor (func : callable) (args : list arg)
| s_adopt (func : callable) (args : list arg)
| s_move_ctor (other : addr)
| s_move_assign (this other : addr)
| s_assign (this : addr) (func : callable) (args : list arg)
| s_swap (this other : addr)
| s_join (this : addr)
| s_detach (this : addr)
| s_sched (t : tid)
| s_throw (e : exn)
| s_return.

Definition exec (s : stmt) : M unit :=
  match s with
  | s_default => joining_thread.default_ctor ;; mret tt
  | s_ctor func args => joining_thread.ctor func args ;; mret tt
  | s_adopt func args =>
      v ← std_thread.ctor func args; joining_thread.adopt v ;; mret tt
  | s_move_ctor other => joining_thread.move_ctor other ;; mret tt
  | s_move_assign this other => joining_thread.move_assign this other
  | s_assign this func args =>
      v ← std_thread.ctor func args; joining_thread.assign this v
  | s_swap this other => joining_thread.swap this other
  | s_join this => joining_thread.join this
  | s_detach this => joining_thread.detach this
  | s_sched t => fun w => Ok tt (sched t w)
  | s_throw e => throw e
  | s_return => mret tt
  end.

(** The statements in order, up to the end, a return or an exception. *)
Fixpoint run_body (p : list stmt) : M unit :=
  match p with
  | [] => mret tt
  | s_return :: _ => mret tt
  | s :: rest => exec s ;; run_body rest
  end.

Fixpoint destroy_all (hs : list addr) : M unit :=
  match hs with
  | [] => mret tt
  | this :: rest => joining_thread.dtor this ;; destroy_all rest
  end.

(** The objects declared since the scope was entered with [n0] objects, the
    latest first: the order in which they are destroyed. *)
Definition locals (n0 : nat) (w : world) : list addr :=
  reverse (seq n0 (length (objs w) - n0)).

Definition unwind (n0 : nat) : M unit := fun w => destroy_all (locals n0 w) w.

(** [body], then [cleanup] whether [body] returned or threw; an exception of
    [body] goes on to the caller after the cleanup. *)
Definition finally {A} (body : M A) (cleanup : M unit) : M A := fun w =>
  match body w with
  | Ok a w1 => (cleanup ;; mret a) w1
  | Throw e w1 => (cleanup ;; throw e) w1
  | Terminate => Terminate
  end.

(** A scope: the body, then the destructors of its locals, on a normal exit
    and on an exception alike. *)
Definition scope (p : list stmt) : M unit := fun w =>
  finally (run_body p) (unwind (length (objs w))) w.

(** Lines 134-141: a std::thread, a guard on it, and a call that returns
    ([None]) or throws; the guard is destroyed first, then the thread.  The
    reference the callable of the source holds comes here as [args]. *)
Definition f2 (my_func : callable) (args : list arg)
    (do_something_in_current_thread : option exn) : M unit :=
  v ← std_thread.ctor my_func args;
  thread ← alloc v;
  finally
    (finally
       (match do_something_in_current_thread with
        | Some e => throw e
        | None => mret tt
        end)
       (thread_guard.dtor (thread_guard.ctor thread)))
    (std_thread.dtor thread).

(** Lines 237-242, with callables that do nothing. *)
Definition transfers (last : bool) : M (addr * addr * addr) :=
  v ← std_thread.ctor [] [];
  thread1 ← alloc v;
  v ← std_thread.move_from thread1;
  thread2 ← alloc v;
  v ← std_thread.ctor [] [];
  std_thread.assign thread1 v ;;
  thread3 ← alloc None;
  std_thread.move_assign thread3 thread2 ;;
  when last (std_thread.move_assign thread1 thread3) ;;
  mret (thread1, thread2, thread3).

(** A statement names only objects that are declared: [n] is their number. *)
Definition names_ok (n : nat) (s : stmt) : bool :=
  match s with
  | s_move_ctor other => bool_decide (other < n)
  | s_move_assign this other | s_swap this other =>
      bool_decide (this < n) && bool_decide (other < n)
  | s_assign this _ _ | s_join this | s_detach this => bool_decide (this < n)
  | _ => true
  end.

Definition declares (s : stmt) : nat :=
  match s with
  | s_default | s_ctor _ _ | s_adopt _ _ | s_move_ctor _ => 1
  | _ => 0
  end.

Fixpoint well_scoped (n : nat) (p : list stmt) : bool :=
  match p with
  | [] => true
  | s :: rest => names_ok n s && well_scoped (n + declares s) rest
  end.

(** ** Accounting of ownership and resolution *)

Definition holds (t : tid) (v : thread) : nat :=
  match v with
  | Some t' => if decide (t' = t) then 1 else 0
  | None => 0
  end.

Definition resolves (t : tid) (e : event) : nat :=
  match e with
  | ev_join t' | ev_detach t' => if decide (t' = t) then 1 else 0
  end.

(** The number of thread objects that own worker [t]. *)
Definition owners (t : tid) (w : world) : nat :=
  sum_list_with (holds t) (objs w).

(** The number of joins and detaches performed on worker [t] so far. *)
Definition resolutions (t : tid) (w : world) : nat :=
  sum_list_with (resolves t) (log w).

Definition started (t : tid) (w : world) : nat :=
  if decide (t < length (workers w)) then 1 else 0.

(** Every worker that was started is owned by one object or was resolved
    once, never both; [v] is a thread value on its way between two
    objects. *)
Definition consistent_with (v : thread) (w : world) : Prop :=
  forall t, holds t v + owners t w + resolutions t w = started t w.

Definition consistent (w : world) : Prop := consistent_with None w.

(** ** Auxiliary notions for the proofs *)

(** The cells the parameters of worker [t] are bound to. *)
Definition env_of (t : tid) (w : world) : list loc :=
  match workers w !! t with
  | Some wk => w_env wk
  | None => []
  end.

(** What [bind_args] gives for each argument. *)
Definition bound (m m' : list Z) (a : arg) (l' : loc) : Prop :=
  match a with
  | by_value x => length m <= l' /\ (x < length m -> m' !! l' = m !! x)
  | temporary v => length m <= l' /\ m' !! l' = Some v
  | std_ref x => l' = x
  end.

(** The world after [if (joinable()) join();] on the object at [this]. *)
Definition joined (this : addr) (w : world) : world :=
  match get this w with
  | Some t => add_event (ev_join t) (set_obj this None (finish t w))
  | None => w
  end.

(** The world after the destructors of the objects [hs], in that order. *)
Definition joined_all (hs : list addr) (w : world) : world :=
  foldl (fun w' this => joined this w') w hs.

(** What a statement can do under the invariant: it returns with the
    invariant and one more object for a declaration, or it throws and has
    changed nothing; it never terminates the process. *)
Definition stmt_ok (s : stmt) (w : world) (r : outcome unit) : Prop :=
  match r with
  | Ok _ w' =>
      consistent w'
      /\ length (objs w') = length (objs w) + declares s
      /\ log w `suffix_of` log w'
  | Throw _ w' => w' = w
  | Terminate => False
  end.

(** A body returns or throws with the invariant; the objects it found are
    still there and so is what the log recorded. *)
Definition body_ok (w : world) (r : outcome unit) : Prop :=
  match r with
  | Ok _ w' | Throw _ w' =>
      consistent w'
      /\ length (objs w) <= length (objs w')
      /\ log w `suffix_of` log w'
  | Terminate => False
  end.

(** How a scope ends: the body returns into [w1] and the scope into [w2], or
    the body throws into [w1] and the scope passes the same exception on
    from [w2]. *)
Definition exits (body whole : outcome unit) (w1 w2 : world) : Prop :=
  (body = Ok tt w1 /\ whole = Ok tt w2)
  \/ (exists e, body = Throw e w1 /\ whole = Throw e w2).

(** ** A small world to evaluate on *)

(** [param k += 1] *)
Definition incr (k : nat) : instr := Instr k (fun vs => (vs !!! k + 1)%Z).

(** One cell holding 10; one worker, still to run, whose parameter is that
    cell; an object that owns the worker and an empty one. *)
Definition demo_world : world :=
  World [10%Z] [Worker [incr 0] [0] false] [Some 0; None] [].

(** The demo world after a join on its first object. *)
Definition demo_joined : world :=
  World [11%Z] [Worker [] [0] false] [None; None] [ev_join 0].

Definition demo_body : list stmt :=
  [ s_ctor [incr 0] [by_value 0];
    s_move_assign 1 0;
    s_sched 0;
    s_throw (other_error 7) ].


(** Two workers that are still to run, each with one assignment to the same
    cell, a different value each, and an object owning each. *)
Definition racing_world : world :=
  World [0%Z]
    [ Worker [Instr 0 (fun _ => 1%Z)] [0] false;
      Worker [Instr 0 (fun _ => 2%Z)] [0] false ]
    [Some 0; Some 1] [].

(** ** parallel_accumulate (lines 387-428) *)

(** The arithmetic of [unsigned long]: 64 bits, wrapping. *)
Definition ulong (z : Z) : Z := (z mod 2 ^ 64)%Z.

Section parallel_accumulate.

(** The element type with its [operator+] and its value-initialised object
    [T()]. *)
Context {T : Type} (plus : T -> T -> T) (T0 : T).

(** [std::accumulate(first, last, init)] over the elements between the two
    iterators. *)
Definition accumulate (range : list T) (init : T) : T := foldl plus init range.

(** Lines 388-392: [result = std::accumulate(first, last, result)]. *)
Definition accumulate_block (range : list T) (result : T) : T :=
  accumulate range result.

(** What one thread of control is given: the block between its two
    iterators and the index of the element of [results] it writes. *)
Record task : Type := Task { slot : nat; block : list T }.

(** The task has run: [results[slot]] holds what accumulate_block left
    there. *)
Definition run (results : list T) (k : task) : list T :=
  alter (accumulate_block (block k)) (slot k) results.

(** Line 401. *)
Definition min_per_thread : Z := 25.

(** Lines 402-403. *)
Definition max_threads (length : Z) : Z :=
  (ulong (ulong (length + min_per_thread) - 1) / min_per_thread)%Z.

(** Lines 406-407; [hardware_threads] is what
    [std::thread::hardware_concurrency()] returned. *)
Definition num_threads (hardware_threads length : Z) : Z :=
  Z.min (if decide (hardware_threads <> 0%Z) then hardware_threads else 2%Z)
        (max_threads length).

(** Line 408. *)
Definition block_size (hardware_threads length : Z) : Z :=
  (length / num_threads hardware_threads length)%Z.

(** Lines 414-422: [n] more rounds of the loop, the next index being [i] and
    the iterator [block_start] standing before the elements given.  The
    result is the threads started and where [block_start] stands after the
    loop. *)
Fixpoint launch (n i size : nat) (block_start : list T) : list task * list T :=
  match n with
  | 0 => ([], block_start)
  | S n' =>
      let block_end := drop size block_start in
      let '(threads, rest) := launch n' (S i) size block_end in
      (Task i (take size block_start) :: threads, rest)
  end.

(** The threads of lines 414-422 and the call of lines 423-424, which the
    calling thread makes itself on the last block. *)
Definition tasks (hardware_threads : nat) (range : list T) : list task :=
  let length := ulong (Z.of_nat (length range)) in
  let n := num_threads (Z.of_nat hardware_threads) length in
  let size := block_size (Z.of_nat hardware_threads) length in
  let '(threads, block_start) :=
    launch (Z.to_nat (ulong (n - 1))) 0 (Z.to_nat size) range in
  threads ++ [Task (Z.to_nat (ulong (n - 1))) block_start].

(** Lines 395-428.  The source writes [fist] for [first] on line 396,
    declares [num_thread] and [result] where it goes on to use [num_threads]
    and [results]; the names used are the ones meant.  [order] is the order
    in which the tasks come to run before the joins of lines 425-426 have
    all returned. *)
Definition parallel_accumulate_in (order : list task)
    (hardware_threads : nat) (range : list T) (init : T) : T :=
  let length := ulong (Z.of_nat (length range)) in
  if decide (length = 0%Z) then init
  else
    let n := num_threads (Z.of_nat hardware_threads) length in
    let results := replicate (Z.to_nat n) T0 in
    accumulate (foldl run results order) init.

(** The threads in the order they were started, then the block of the
    caller. *)
Definition parallel_accumulate (hardware_threads : nat) (range : list T)
    (init : T) : T :=
  parallel_accumulate_in (tasks hardware_threads range)
    hardware_threads range init.

End parallel_accumulate.
(** ** The functions that use the threads *)

(** A local variable of the calling thread: a new cell holding [v], at the
    end of the memory.  The cell stays until [end_of_lifetime] takes it
    away. *)
Definition alloc_cell (v : Z) : M loc := fun w =>
  Ok (length (mem w)) (set_mem (mem w ++ [v]) w).

(** The lifetime of the local variable at [l], the one declared last, ends:
    its cell is given back, and the memory ends where it ended before the
    variable was declared. *)
Definition end_of_lifetime (l : loc) : M unit := fun w =>
  Ok tt (set_mem (take l (mem w)) w).

(** The scheduler gives the worker of [v] that many steps. *)
Definition run_for (v : thread) (steps : nat) : M unit := fun w =>
  Ok tt (match v with
         | Some t => Nat.iter steps (sched t) w
         | None => w
         end).

(** The cells the next step of worker [t] reads and writes: those its
    parameters are bound to, when it has a step left. *)
Definition next_accesses (t : tid) (w : world) : list loc :=
  match workers w !! t with
  | Some wk =>
      match w_code wk with
      | _ :: _ => w_env wk
      | [] => []
      end
  | None => []
  end.

(** The next step of worker [t] accesses a cell that is not there any more,
    a variable whose lifetime has ended: undefined behaviour, as lines 47-48
    say. *)
Definition dangling (t : tid) (w : world) : Prop :=
  exists l, l ∈ next_accesses t w /\ length (mem w) <= l.

(** A call in the current thread that is only declared in the source: it
    returns, or it throws. *)
Definition call (thrown : option exn) : M unit :=
  match thrown with
  | Some e => throw e
  | None => mret tt
  end.

(** Whether a handler for [const std::exception &] takes the exception:
    std::system_error and std::logic_error derive from std::exception,
    [other_error] stands for a thrown object that does not. *)
Definition std_exception (e : exn) : bool :=
  match e with
  | system_error _ | logic_error _ => true
  | other_error _ => false
  end.

(** [try { body } catch (const std::exception &e) { handler e }] *)
Definition try_catch {A} (body : M A) (handler : exn -> M A) : M A := fun w =>
  match body w with
  | Throw e w1 => if std_exception e then handler e w1 else Throw e w1
  | r => r
  end.

(** Line 46: the bound of the loop. *)
Definition iterations : nat := Z.to_nat 1000000.

(** Lines 39-50: the callable holds a reference [i], its only parameter
    here, and calls [do_something(i)] a million times; [do_something], which
    is only declared (line 4), is given by what it leaves in [i]. *)
Definition func (do_something : Z -> Z) : callable :=
  replicate iterations (Instr 0 (fun vs => do_something (vs !!! 0))).

(** Lines 52-58.  [steps] is the number of steps the scheduler gives the new
    thread before the function is left.  When the function is left the
    destructor of [my_thread] runs, and then the lifetime of
    [some_local_state] ends. *)
Definition oops (do_something : Z -> Z) (steps : nat) : M unit :=
  some_local_state ← alloc_cell 0;
  finally
    (v ← std_thread.ctor (func do_something) [std_ref some_local_state];
     my_thread ← alloc v;
     finally (std_thread.detach my_thread ;; run_for v steps)
       (std_thread.dtor my_thread))
    (end_of_lifetime some_local_state).

(** How the try block of lines 94-104 is left: past its end, or by the
    [throw e;] of line 102. *)
Inductive completion : Set :=
| normally
| rethrowing.

(** How f of lines 89-106 is left.  [throw e;] throws a new object of the
    static type of [e], std::exception, copied from the base of what was
    caught: it is none of the exceptions of [exn] and has a case of its
    own. *)
Inductive leaving : Type :=
| returned (w : world)
| thrown_std_exception (w : world)
| thrown (e : exn) (w : world)
| terminated.

Definition leave (r : outcome completion) : leaving :=
  match r with
  | Ok normally w => returned w
  | Ok rethrowing w => thrown_std_exception w
  | Throw e w => thrown e w
  | Terminate => terminated
  end.

(** Lines 89-106.  The handler joins and rethrows, which skips the join of
    line 105; the destructor of [t] runs however the function is left. *)
Definition f_try_catch (do_something : Z -> Z)
    (do_something_in_current_thread : option exn) (w : world) : leaving :=
  leave
    ((some_local_state ← alloc_cell 0;
      v ← std_thread.ctor (func do_something) [std_ref some_local_state];
      t ← alloc v;
      finally
        (how ← try_catch
                 (call do_something_in_current_thread ;; mret normally)
                 (fun _ => std_thread.join t ;; mret rethrowing);
         match how with
         | normally => std_thread.join t ;; mret normally
         | rethrowing => mret rethrowing
         end)
        (std_thread.dtor t)) w).

(** Lines 203-217, with the thread of line 212 as the comment of lines
    206-211 directs; [display_status] is only declared and taken to return.
    The result is what [process_widget_data] is given. *)
Definition oops_again (update_data_for_widget : callable) (w : Z)
    (initial_data : Z) : M Z :=
  w_ ← alloc_cell w;
  data ← alloc_cell initial_data;
  v ← std_thread.ctor update_data_for_widget [by_value w_; std_ref data];
  t ← alloc v;
  finally
    (call None ;;
     std_thread.join t ;;
     query (fun world => mem world !!! data))
    (std_thread.dtor t).

(** Lines 237-242 for any two callables; [last] says whether line 242 is
    run. *)
Definition transfer_of_ownership (some_func some_other_func : callable)
    (last : bool) : M (addr * addr * addr) :=
  v ← std_thread.ctor some_func [];
  thread1 ← alloc v;
  v ← std_thread.move_from thread1;
  thread2 ← alloc v;
  v ← std_thread.ctor some_other_func [];
  std_thread.assign thread1 v ;;
  thread3 ← alloc None;
  std_thread.move_assign thread3 thread2 ;;
  when last (std_thread.move_assign thread1 thread3) ;;
  mret (thread1, thread2, thread3).

(** Lines 291-296; [some_local_state] is not initialised: [indeterminate]
    is what it happens to hold. *)
Definition f_scoped_thread (indeterminate : Z) (do_something : Z -> Z)
    (do_something_in_current_thread : option exn) : M unit :=
  some_local_state ← alloc_cell indeterminate;
  v ← std_thread.ctor (func do_something) [std_ref some_local_state];
  t ← scoped_thread.ctor v;
  finally (call do_something_in_current_thread) (scoped_thread.dtor t).

(** Lines 367-370: one round of the loop for each [i]; the thread gets a
    copy of [i]. *)
Fixpoint emplace_each (do_work : callable) (indices : list nat) : M (list addr) :=
  match indices with
  | [] => mret []
  | i :: rest =>
      v ← std_thread.ctor do_work [temporary (Z.of_nat i)];
      entry ← alloc v;
      entries ← emplace_each do_work rest;
      mret (entry :: entries)
  end.

(** Lines 371-372. *)
Fixpoint join_each (threads : list addr) : M unit :=
  match threads with
  | [] => mret tt
  | entry :: rest => std_thread.join entry ;; join_each rest
  end.

(** The destructor of the vector destroys its elements. *)
Fixpoint destroy_each (threads : list addr) : M unit :=
  match threads with
  | [] => mret tt
  | entry :: rest => std_thread.dtor entry ;; destroy_each rest
  end.

(** Lines 365-373. *)
Definition f_do_work (do_work : callable) : M unit :=
  threads ← emplace_each do_work (seq 0 20);
  finally (join_each threads) (destroy_each threads).

(** The world once [std::thread t(f, args...)] has been declared in [w],
    the parameters of [f] being bound to [env] in the memory [m]. *)
Definition started_world (f : callable) (env : list loc) (m : list Z)
    (w : world) : world :=
  World m (workers w ++ [Worker f env false])
    (objs w ++ [Some (length (workers w))]) (log w).

(** What a function that started its worker in [w], on a new local variable
    holding [v], has made sure of when it is left in [w']: the worker has
    made all its calls of [do_something] on the variable and was joined, and
    the thread object owns nothing. *)
Definition func_has_run (do_something : Z -> Z) (v : Z) (w w' : world) : Prop :=
  completed (length (workers w)) w'
  /\ get (length (objs w)) w' = None
  /\ resolutions (length (workers w)) w' = 1
  /\ mem w' = mem w ++ [Nat.iter iterations do_something v]
  /\ consistent w'.

(** The world once the loop of lines 367-370 has run over [indices] from
    [w]: a cell with a copy of each index, a worker on each cell, a thread
    object for each worker. *)
Definition emplaced (do_work : callable) (indices : list nat) (w : world)
    : world :=
  World (mem w ++ (Z.of_nat <$> indices))
    (workers w
     ++ ((fun j => Worker do_work [length (mem w) + j] false)
           <$> seq 0 (length indices)))
    (objs w ++ (Some <$> seq (length (workers w)) (length indices)))
    (log w).

(** A world with a worker that no object has taken yet. *)
Definition in_flight_world : world := World [] [Worker [] [] false] [] [].

(** * Properties *)

(** ** Lists *)

Lemma sum_list_with_insert {A} (f : A -> nat) (l : list A) (a : nat) (old new : A) :
  l !! a = Some old ->
  sum_list_with f (<[a := new]> l) + f old = sum_list_with f l + f new.
Proof.
  revert a. induction l as [|x l IH]; intros [|a] H; simplify_eq/=; [lia|].
  specialize (IH a H). lia.
Qed.

Lemma get_lookup (a : addr) (w : world) :
  a < length (objs w) -> objs w !! a = Some (get a w).
Proof. intros H. unfold get. by apply list_lookup_lookup_total_lt. Qed.

Lemma lookup_get (a : addr) (w : world) (v : thread) :
  objs w !! a = Some v -> get a w = v.
Proof. intros H. unfold get. by apply list_lookup_total_correct. Qed.

(** ** What each change of the world leaves alone *)

Lemma objs_sched t w : objs (sched t w) = objs w.
Proof. unfold sched. by repeat case_match. Qed.

Lemma log_sched t w : log (sched t w) = log w.
Proof. unfold sched. by repeat case_match. Qed.

Lemma length_workers_sched t w : length (workers (sched t w)) = length (workers w).
Proof. unfold sched. repeat case_match; simpl; by rewrite ?length_insert. Qed.

Lemma objs_finish t w : objs (finish t w) = objs w.
Proof. unfold finish. by case_match. Qed.

Lemma log_finish t w : log (finish t w) = log w.
Proof. unfold finish. by case_match. Qed.

Lemma length_workers_finish t w :
  length (workers (finish t w)) = length (workers w).
Proof. unfold finish. case_match; simpl; by rewrite ?length_insert. Qed.

Lemma objs_hand_over t w : objs (std_thread.hand_over t w) = objs w.
Proof. done. Qed.

Lemma length_workers_hand_over t w :
  length (workers (std_thread.hand_over t w)) = length (workers w).
Proof. simpl. by rewrite length_alter. Qed.

Lemma completed_finish t w : t < length (workers w) -> completed t (finish t w).
Proof.
  intros H. unfold completed, finish.
  destruct (lookup_lt_is_Some_2 _ _ H) as [wk Hwk]. rewrite Hwk. simpl.
  eexists. split; [by apply list_lookup_insert_eq|done].
Qed.

Lemma completed_finish_other t t' w : completed t w -> completed t (finish t' w).
Proof.
  intros (wk & Hwk & Hc). unfold completed, finish.
  destruct (workers w !! t') as [wk'|] eqn:Ht'; [|by eauto]. simpl.
  destruct (decide (t' = t)) as [->|Hne].
  - eexists. split; [apply list_lookup_insert_eq; by eapply lookup_lt_Some|done].
  - exists wk. by rewrite list_lookup_insert_ne.
Qed.

(** [finish] is the scheduler giving the worker all the steps it has left. *)
Lemma finish_sched t w : finish t w = Nat.iter (remaining t w) (sched t) w.
Proof.
  remember (remaining t w) as n eqn:Hn. revert w Hn.
  induction n as [|n IH]; intros w Hn.
  - unfold remaining in Hn. unfold finish.
    destruct (workers w !! t) as [[code env d]|] eqn:Hwk; [|done].
    destruct code; [|done]. destruct w as [m ws os l]. simpl in *.
    unfold set_workers, set_mem. simpl. by rewrite list_insert_id.
  - rewrite Nat.iter_succ_r, <- IH.
    + unfold remaining in Hn. unfold finish, sched.
      destruct (workers w !! t) as [[code env d]|] eqn:Hwk; [|done].
      destruct code as [|i code]; [done|]. simpl.
      rewrite list_lookup_insert_eq by by eapply lookup_lt_Some.
      simpl. by rewrite list_insert_insert_eq.
    + unfold remaining in *. unfold sched.
      destruct (workers w !! t) as [[code env d]|] eqn:Hwk; [|done].
      destruct code as [|i code]; [done|]. simpl in *.
      rewrite list_lookup_insert_eq by by eapply lookup_lt_Some.
      simpl. lia.
Qed.

(** ** Reading and writing thread objects *)

Lemma length_objs_set_obj a v w : length (objs (set_obj a v w)) = length (objs w).
Proof. simpl. apply length_insert. Qed.

Lemma get_set_obj_eq a v w : a < length (objs w) -> get a (set_obj a v w) = v.
Proof.
  intros H. apply lookup_get. simpl. by apply list_lookup_insert_eq.
Qed.

Lemma get_set_obj_ne a b v w : a <> b -> get b (set_obj a v w) = get b w.
Proof.
  intros H. unfold get. simpl. by rewrite list_lookup_total_insert_ne.
Qed.

Lemma get_outside a w : length (objs w) <= a -> get a w = None.
Proof. intros H. unfold get. by rewrite list_lookup_total_alt, lookup_ge_None_2. Qed.

Lemma set_obj_outside a v w : length (objs w) <= a -> set_obj a v w = w.
Proof.
  intros H. unfold set_obj. rewrite list_insert_ge by done. by destruct w.
Qed.

Lemma get_add_event a e w : get a (add_event e w) = get a w.
Proof. done. Qed.

Lemma get_finish a t w : get a (finish t w) = get a w.
Proof. unfold get. by rewrite objs_finish. Qed.

(** ** Accounting *)

Lemma owners_set_obj t a v w :
  a < length (objs w) ->
  owners t (set_obj a v w) + holds t (get a w) = owners t w + holds t v.
Proof.
  intros H. unfold owners. simpl. apply sum_list_with_insert. by apply get_lookup.
Qed.

Lemma owners_alloc t v w :
  owners t (set_objs (objs w ++ [v]) w) = owners t w + holds t v.
Proof. unfold owners. simpl. rewrite sum_list_with_app. simpl. lia. Qed.

Lemma owners_finish t t' w : owners t (finish t' w) = owners t w.
Proof. unfold owners. by rewrite objs_finish. Qed.

Lemma owners_sched t t' w : owners t (sched t' w) = owners t w.
Proof. unfold owners. by rewrite objs_sched. Qed.

Lemma resolutions_sched t t' w : resolutions t (sched t' w) = resolutions t w.
Proof. unfold resolutions. by rewrite log_sched. Qed.

Lemma started_sched t t' w : started t (sched t' w) = started t w.
Proof. unfold started. by rewrite length_workers_sched. Qed.

Lemma holds_same t : holds t (Some t) = 1.
Proof. simpl. by rewrite decide_True. Qed.

(** An owned worker is one the runtime has started. *)
Lemma owned_started v w a t :
  consistent_with v w -> a < length (objs w) -> get a w = Some t ->
  t < length (workers w).
Proof.
  intros Hc Ha Hg. specialize (Hc t).
  pose proof (owners_set_obj t a None w Ha) as Ho.
  rewrite Hg, holds_same in Ho. simpl in Ho.
  unfold started in Hc. case_decide; [done|lia].
Qed.


(** ** The invariant through each change of the world *)

Lemma consistent_join v w this t :
  consistent_with v w -> this < length (objs w) -> get this w = Some t ->
  consistent_with v (add_event (ev_join t) (set_obj this None (finish t w))).
Proof.
  intros Hc Ha Hg t'. specialize (Hc t').
  assert (this < length (objs (finish t w))) as Ha' by by rewrite objs_finish.
  pose proof (owners_set_obj t' this None (finish t w) Ha') as Ho.
  rewrite get_finish, Hg, owners_finish in Ho.
  unfold resolutions in *. unfold owners in *. simpl in *.
  rewrite log_finish. unfold started in *. simpl.
  rewrite ?length_insert, length_workers_finish. lia.
Qed.

Lemma consistent_detach v w this t :
  consistent_with v w -> this < length (objs w) -> get this w = Some t ->
  consistent_with v
    (add_event (ev_detach t) (set_obj this None (std_thread.hand_over t w))).
Proof.
  intros Hc Ha Hg t'. specialize (Hc t').
  pose proof (owners_set_obj t' this None w Ha) as Ho.
  rewrite Hg in Ho.
  unfold resolutions, owners, started in *. simpl in *.
  rewrite length_alter. lia.
Qed.

Lemma consistent_alloc v w :
  consistent_with v w -> consistent (set_objs (objs w ++ [v]) w).
Proof.
  intros Hc t. specialize (Hc t). rewrite owners_alloc.
  unfold resolutions, started in *. simpl in *. lia.
Qed.

Lemma consistent_move_from w other :
  consistent w -> consistent_with (get other w) (set_obj other None w).
Proof.
  intros Hc t. specialize (Hc t).
  destruct (decide (other < length (objs w))) as [Ha|Ha].
  - pose proof (owners_set_obj t other None w Ha) as Ho.
    unfold resolutions, started in *. simpl in *. lia.
  - rewrite set_obj_outside, get_outside by lia. done.
Qed.

Lemma consistent_assign v w this :
  consistent_with v w -> this < length (objs w) -> get this w = None ->
  consistent (set_obj this v w).
Proof.
  intros Hc Ha Hg t. specialize (Hc t).
  pose proof (owners_set_obj t this v w Ha) as Ho. rewrite Hg in Ho.
  unfold resolutions, started in *. simpl in *. lia.
Qed.

Lemma consistent_swap w this other :
  consistent w -> this < length (objs w) -> other < length (objs w) ->
  consistent (set_obj other (get this w) (set_obj this (get other w) w)).
Proof.
  intros Hc Ha Hb t. specialize (Hc t).
  pose proof (owners_set_obj t this (get other w) w Ha) as Ho1.
  assert (other < length (objs (set_obj this (get other w) w))) as Hb'
    by by rewrite length_objs_set_obj.
  pose proof (owners_set_obj t other (get this w) _ Hb') as Ho2.
  destruct (decide (this = other)) as [->|Hne].
  - rewrite get_set_obj_eq in Ho2 by done.
    unfold resolutions, started in *. simpl in *. lia.
  - rewrite get_set_obj_ne in Ho2 by done.
    unfold resolutions, started in *. simpl in *. lia.
Qed.

Lemma consistent_sched v w t : consistent_with v w -> consistent_with v (sched t w).
Proof.
  intros Hc t'. specialize (Hc t').
  by rewrite owners_sched, resolutions_sched, started_sched.
Qed.

Lemma consistent_spawn w func env m :
  consistent w ->
  consistent_with (Some (length (workers w)))
    (set_workers (workers w ++ [Worker func env false]) (set_mem m w)).
Proof.
  intros Hc t. specialize (Hc t).
  unfold owners, resolutions, started in *. simpl in *.
  rewrite length_app. simpl. repeat case_decide; lia.
Qed.

(** ** What the operations of joining_thread compute *)

Lemma get_Some_valid a w t : get a w = Some t -> a < length (objs w).
Proof.
  intros H. destruct (decide (a < length (objs w))) as [|Hn]; [done|].
  rewrite get_outside in H by lia. done.
Qed.

Lemma join_owned this t w :
  get this w = Some t ->
  joining_thread.join this w
  = Ok tt (add_event (ev_join t) (set_obj this None (finish t w))).
Proof.
  intros H. unfold joining_thread.join, std_thread.join. by rewrite H.
Qed.

Lemma join_empty this w :
  get this w = None -> joining_thread.join this w = Throw NotJoinable w.
Proof.
  intros H. unfold joining_thread.join, std_thread.join. by rewrite H.
Qed.

Lemma detach_owned this t w :
  get this w = Some t ->
  joining_thread.detach this w
  = Ok tt (add_event (ev_detach t) (set_obj this None (std_thread.hand_over t w))).
Proof.
  intros H. unfold joining_thread.detach, std_thread.detach. by rewrite H.
Qed.

Lemma detach_empty this w :
  get this w = None -> joining_thread.detach this w = Throw NotJoinable w.
Proof.
  intros H. unfold joining_thread.detach, std_thread.detach. by rewrite H.
Qed.

Lemma get_joined_same this w : get this (joined this w) = None.
Proof.
  unfold joined. destruct (get this w) as [t|] eqn:Hg; [|done].
  rewrite get_add_event, get_set_obj_eq; [done|].
  rewrite objs_finish. by eapply get_Some_valid.
Qed.

Lemma get_joined_other this b w : this <> b -> get b (joined this w) = get b w.
Proof.
  intros Hne. unfold joined. destruct (get this w) as [t|]; [|done].
  by rewrite get_add_event, get_set_obj_ne, get_finish.
Qed.

Lemma length_objs_joined this w : length (objs (joined this w)) = length (objs w).
Proof.
  unfold joined. destruct (get this w); [|done].
  simpl. by rewrite length_insert, objs_finish.
Qed.

Lemma consistent_joined v this w :
  consistent_with v w -> consistent_with v (joined this w).
Proof.
  intros Hc. unfold joined. destruct (get this w) as [t|] eqn:Hg; [|done].
  apply consistent_join; [done| by eapply get_Some_valid |done].
Qed.

Lemma completed_joined_mono this t w :
  completed t w -> completed t (joined this w).
Proof.
  intros H. unfold joined. destruct (get this w) as [t'|]; [|done].
  destruct (completed_finish_other t t' w H) as (wk & Hwk & Hc).
  by exists wk.
Qed.

Lemma completed_joined v this t w :
  consistent_with v w -> get this w = Some t -> completed t (joined this w).
Proof.
  intros Hc Hg. unfold joined. rewrite Hg.
  pose proof (get_Some_valid _ _ _ Hg) as Ha.
  destruct (completed_finish t w (owned_started _ _ _ _ Hc Ha Hg))
    as (wk & Hwk & Hcode).
  by exists wk.
Qed.

Lemma resolutions_joined this t w :
  resolutions t (joined this w) = resolutions t w + holds t (get this w).
Proof.
  unfold joined. destruct (get this w) as [t'|]; simpl; [|lia].
  unfold resolutions. simpl. rewrite log_finish. lia.
Qed.

(** The three members that start with [if (joinable()) join();] are proved
    the same way: by cases on what the object owns, the join taking the
    world to [joined this w] where the object is empty. *)
Ltac guarded_join this w :=
  let Hj := fresh "Hj" in
  let Hg := fresh "Hg" in
  let t := fresh "t" in
  unfold mbind, M_bind, noexcept, query, when;
  unfold joining_thread.joinable, std_thread.joinable;
  pose proof (get_joined_same this w) as Hj; unfold joined in *;
  destruct (get this w) as [t|] eqn:Hg;
  [ rewrite (join_owned _ _ _ Hg)
  | unfold mret, M_ret ];
  unfold std_thread.dtor, std_thread.move_assign, std_thread.assign,
    std_thread.joinable;
  [ by rewrite Hj | by rewrite Hg ].

(** Lines 329-332. *)
Lemma dtor_joined this w : joining_thread.dtor this w = Ok tt (joined this w).
Proof. unfold joining_thread.dtor. guarded_join this w. Qed.

(** Lines 315-320. *)
Lemma move_assign_joined this other w :
  joining_thread.move_assign this other w
  = Ok tt (set_obj this (get other (joined this w))
             (set_obj other None (joined this w))).
Proof. unfold joining_thread.move_assign. guarded_join this w. Qed.

(** Lines 322-327. *)
Lemma assign_joined this v w :
  joining_thread.assign this v w = Ok tt (set_obj this v (joined this w)).
Proof. unfold joining_thread.assign. guarded_join this w. Qed.

Lemma consistent_move_assign w this other :
  consistent w -> this < length (objs w) ->
  consistent (set_obj this (get other (joined this w))
                (set_obj other None (joined this w))).
Proof.
  intros Hc Ha. apply (consistent_joined _ this) in Hc.
  pose proof (get_joined_same this w) as Hj.
  rewrite <- (length_objs_joined this w) in Ha.
  generalize dependent (joined this w). intros w1 Hc Hj Ha.
  apply consistent_assign.
  - by apply consistent_move_from.
  - by rewrite length_objs_set_obj.
  - destruct (decide (other = this)) as [->|Hne].
    + by rewrite get_set_obj_eq.
    + by rewrite get_set_obj_ne.
Qed.

(** ** Statements and bodies *)

Lemma spawn_consistent func args w v w' :
  consistent w -> std_thread.ctor func args w = Ok v w' ->
  consistent_with v w' /\ objs w' = objs w.
Proof.
  intros Hc. unfold std_thread.ctor.
  destruct (std_thread.bind_args args (mem w)) as [env m].
  intros [= <- <-]. split; [by apply consistent_spawn|done].
Qed.

Lemma spawn_log func args w v w' :
  std_thread.ctor func args w = Ok v w' -> log w' = log w.
Proof.
  unfold std_thread.ctor.
  destruct (std_thread.bind_args args (mem w)) as [env m]. by intros [= <- <-].
Qed.

Lemma log_joined_suffix this w : log w `suffix_of` log (joined this w).
Proof.
  unfold joined. destruct (get this w); [|done].
  simpl. rewrite log_finish. by apply suffix_cons_r.
Qed.

Lemma spawn_returns func args w :
  exists v w', std_thread.ctor func args w = Ok v w'.
Proof.
  unfold std_thread.ctor.
  destruct (std_thread.bind_args args (mem w)) as [env m]. eauto.
Qed.

Lemma exec_ok s w :
  consistent w -> names_ok (length (objs w)) s = true -> stmt_ok s w (exec s w).
Proof.
  intros Hc Hn. destruct s as
    [|func args|func args|other|this other|this func args|this other
     |this|this|t|e|]; simpl in Hn;
    repeat match goal with
    | H : _ && _ = true |- _ => apply andb_true_iff in H as [? ?]
    | H : bool_decide _ = true |- _ => apply bool_decide_eq_true in H
    end; unfold exec, stmt_ok.
  - (* joining_thread h; *)
    unfold joining_thread.default_ctor, mbind, M_bind, noexcept, alloc. simpl.
    split_and!; [by apply (consistent_alloc None)|by rewrite length_app|done].
  - (* joining_thread h(func, args...); *)
    unfold joining_thread.ctor, mbind, M_bind.
    destruct (spawn_returns func args w) as (v & w' & Hs). rewrite Hs.
    destruct (spawn_consistent _ _ _ _ _ Hc Hs) as [Hc' Ho].
    unfold alloc. simpl. split_and!; [by apply consistent_alloc| |].
    + by rewrite length_app, Ho.
    + by rewrite (spawn_log _ _ _ _ _ Hs).
  - (* joining_thread h(std::thread(func, args...)); *)
    unfold joining_thread.adopt, mbind, M_bind, noexcept.
    destruct (spawn_returns func args w) as (v & w' & Hs). rewrite Hs.
    destruct (spawn_consistent _ _ _ _ _ Hc Hs) as [Hc' Ho].
    unfold alloc. simpl. split_and!; [by apply consistent_alloc| |].
    + by rewrite length_app, Ho.
    + by rewrite (spawn_log _ _ _ _ _ Hs).
  - (* joining_thread h(std::move(other)); *)
    unfold joining_thread.move_ctor, std_thread.move_from, mbind, M_bind,
      noexcept, alloc. simpl.
    split_and!; [| |done].
    + apply (consistent_alloc _ (set_obj other None w)).
      by apply consistent_move_from.
    + by rewrite length_app, length_insert.
  - (* this = std::move(other); *)
    rewrite move_assign_joined. split_and!.
    + by apply consistent_move_assign.
    + rewrite !length_objs_set_obj, length_objs_joined. simpl. lia.
    + apply log_joined_suffix.
  - (* this = std::thread(func, args...); *)
    unfold mbind, M_bind.
    destruct (spawn_returns func args w) as (v & w' & Hs). rewrite Hs.
    destruct (spawn_consistent _ _ _ _ _ Hc Hs) as [Hc' Ho].
    rewrite assign_joined. split_and!.
    + apply consistent_assign.
      * by apply consistent_joined.
      * by rewrite length_objs_joined, Ho.
      * apply get_joined_same.
    + rewrite length_objs_set_obj, length_objs_joined, Ho. simpl. lia.
    + rewrite <- (spawn_log _ _ _ _ _ Hs). apply (log_joined_suffix this w').
  - (* this.swap(other); *)
    unfold joining_thread.swap, noexcept, std_thread.swap. split_and!; [| |done].
    + by apply consistent_swap.
    + rewrite !length_objs_set_obj. simpl. lia.
  - (* this.join(); *)
    destruct (get this w) as [t|] eqn:Hg.
    + rewrite (join_owned _ _ _ Hg). split_and!.
      * by apply consistent_join.
      * simpl. rewrite length_insert, objs_finish. lia.
      * simpl. rewrite log_finish. by apply suffix_cons_r.
    + by rewrite (join_empty _ _ Hg).
  - (* this.detach(); *)
    destruct (get this w) as [t|] eqn:Hg.
    + rewrite (detach_owned _ _ _ Hg). split_and!.
      * by apply consistent_detach.
      * simpl. rewrite length_insert. lia.
      * simpl. by apply suffix_cons_r.
    + by rewrite (detach_empty _ _ Hg).
  - (* the scheduler *)
    split_and!; [by apply consistent_sched| |].
    + rewrite objs_sched. simpl. lia.
    + by rewrite log_sched.
  - (* throw e; *)
    done.
  - (* return; *)
    unfold mret, M_ret. split_and!; [done|simpl; lia|done].
Qed.

Lemma run_body_ok p w :
  consistent w -> well_scoped (length (objs w)) p = true ->
  body_ok w (run_body p w).
Proof.
  revert w. induction p as [|s p IH]; intros w Hc Hw.
  - simpl. unfold mret, M_ret. simpl. split_and!; [done|lia|done].
  - simpl in Hw. apply andb_true_iff in Hw as [Hn Hw].
    pose proof (exec_ok s w Hc Hn) as Hs.
    assert (run_body (s :: p) w = (exec s ;; run_body p) w \/
            (s = s_return /\ run_body (s :: p) w = Ok tt w)) as [Hr|[-> Hr]]
      by (destruct s; auto).
    + rewrite Hr. unfold mbind, M_bind.
      destruct (exec s w) as [[] w'|e w'|]; simpl in Hs.
      * destruct Hs as (Hc' & Hl & Hlog). rewrite <- Hl in Hw.
        specialize (IH w' Hc' Hw). unfold body_ok in *.
        destruct (run_body p w') as [[] w''|e w''|]; [| |done];
          (destruct IH as (? & ? & ?); split_and!;
           [done|lia|by etrans]).
      * subst w'. simpl. split_and!; [done|lia|done].
      * done.
    + rewrite Hr. simpl. split_and!; [done|lia|done].
Qed.


(** ** Leaving a scope *)

Lemma destroy_all_joined hs w : destroy_all hs w = Ok tt (joined_all hs w).
Proof.
  revert w. induction hs as [|this hs IH]; intros w; [done|].
  simpl. unfold mbind, M_bind. by rewrite dtor_joined, IH.
Qed.

Lemma joined_all_spec hs w :
  consistent w ->
  consistent (joined_all hs w)
  /\ length (objs (joined_all hs w)) = length (objs w)
  /\ (forall a, a ∈ hs -> get a (joined_all hs w) = None)
  /\ (forall a, a ∉ hs -> get a (joined_all hs w) = get a w)
  /\ (forall t, completed t w -> completed t (joined_all hs w))
  /\ (forall a t, a ∈ hs -> get a w = Some t -> completed t (joined_all hs w)).
Proof.
  revert w. induction hs as [|this hs IH]; intros w Hc.
  - simpl. repeat split; try done; intros;
      match goal with H : _ ∈ [] |- _ => by apply elem_of_nil in H end.
  - simpl. pose proof (consistent_joined None this w Hc) as Hc1.
    destruct (IH (joined this w) Hc1) as (Hc2 & Hl & Hin & Hout & Hmono & Hdone).
    split; [done|]. split; [by rewrite Hl, length_objs_joined|].
    split; [|split; [|split]].
    + intros a Ha. destruct (decide (a ∈ hs)) as [|Hn]; [by apply Hin|].
      apply elem_of_cons in Ha as [->|]; [|done].
      rewrite Hout by done. apply get_joined_same.
    + intros a Ha. apply not_elem_of_cons in Ha as [Hne Ha].
      rewrite Hout by done. apply get_joined_other. congruence.
    + intros t Ht. by apply Hmono, completed_joined_mono.
    + intros a t Ha Hg. apply elem_of_cons in Ha as [->|Ha].
      * by eapply Hmono, (completed_joined None).
      * destruct (decide (this = a)) as [->|Hne].
        -- by eapply Hmono, (completed_joined None).
        -- apply (Hdone a); [done|]. by rewrite get_joined_other.
Qed.

Lemma elem_of_locals a n0 w :
  a ∈ locals n0 w <-> n0 <= a < length (objs w).
Proof. unfold locals. rewrite elem_of_reverse, elem_of_seq. lia. Qed.

Lemma unwind_joined n0 w : unwind n0 w = Ok tt (joined_all (locals n0 w) w).
Proof. unfold unwind. apply destroy_all_joined. Qed.

Lemma scope_exits p w :
  consistent w -> well_scoped (length (objs w)) p = true ->
  exists w1,
    exits (run_body p w) (scope p w) w1
      (joined_all (locals (length (objs w)) w1) w1)
    /\ consistent w1 /\ length (objs w) <= length (objs w1)
    /\ log w `suffix_of` log w1.
Proof.
  intros Hc Hw. pose proof (run_body_ok p w Hc Hw) as Hb.
  unfold scope, finally, exits.
  destruct (run_body p w) as [[] w1|e w1|]; [| |done].
  - exists w1. split; [|done]. left.
    unfold mbind, M_bind. by rewrite unwind_joined.
  - exists w1. split; [|done]. right. exists e.
    unfold mbind, M_bind. by rewrite unwind_joined.
Qed.


Lemma guard_dtor_joined g w :
  thread_guard.dtor g w = Ok tt (joined (thread_guard.t g) w).
Proof.
  unfold thread_guard.dtor, mbind, M_bind, noexcept, query, when.
  unfold std_thread.joinable, joined, std_thread.join.
  destruct (get (thread_guard.t g) w) as [u|] eqn:Hg; simpl.
  - by rewrite Hg.
  - done.
Qed.

Lemma joined_owned this t w :
  get this w = Some t ->
  joined this w = add_event (ev_join t) (set_obj this None (finish t w)).
Proof. intros H. unfold joined. by rewrite H. Qed.

Lemma scope_locals_joined w1 n0 :
  consistent w1 ->
  forall this t, n0 <= this -> get this w1 = Some t ->
    completed t (joined_all (locals n0 w1) w1)
    /\ get this (joined_all (locals n0 w1) w1) = None.
Proof.
  intros Hc this t Hn Hg.
  destruct (joined_all_spec (locals n0 w1) w1 Hc)
    as (_ & _ & Hin & _ & _ & Hdone).
  assert (this ∈ locals n0 w1) as Hl.
  { apply elem_of_locals. split; [done|]. by eapply get_Some_valid. }
  split; [by eapply Hdone|by apply Hin].
Qed.

Lemma get_alloc_new v w : get (length (objs w)) (set_objs (objs w ++ [v]) w) = v.
Proof. unfold get. simpl. by rewrite list_lookup_total_middle. Qed.

Lemma get_alloc_old a v w :
  a < length (objs w) -> get a (set_objs (objs w ++ [v]) w) = get a w.
Proof. intros H. unfold get. simpl. by rewrite lookup_total_app_l. Qed.


(** ** The claims *)

(** C1: an object of thread_guard or joining_thread that is destroyed while
    its thread still owns a worker does what join does: the worker has
    completed and the object owns nothing afterwards.  A scope of
    joining_thread objects ends that way on every exit, whether its body runs
    to the end, returns early or throws: each worker a local object owned when
    the body was left has completed when the scope is left, the local objects
    own nothing, and the process was not terminated. *)
Theorem destroy_waits (p : list stmt) (w : world) :
  consistent w -> well_scoped (length (objs w)) p = true ->
  (forall this t, get this w = Some t ->
     exists w',
       joining_thread.join this w = Ok tt w'
       /\ joining_thread.dtor this w = Ok tt w'
       /\ thread_guard.dtor (thread_guard.ctor this) w = Ok tt w'
       /\ completed t w' /\ get this w' = None)
  /\ exists w1 w2,
       exits (run_body p w) (scope p w) w1 w2
       /\ forall this t, length (objs w) <= this -> get this w1 = Some t ->
            completed t w2 /\ get this w2 = None.
Proof.
  intros Hc Hw. split.
  - intros this t Hg. exists (joined this w).
    rewrite dtor_joined, guard_dtor_joined. simpl.
    split_and!; try done.
    + by rewrite (join_owned _ _ _ Hg), (joined_owned _ _ _ Hg).
    + by apply (completed_joined None).
    + apply get_joined_same.
  - destruct (scope_exits p w Hc Hw) as (w1 & Hex & Hc1 & _).
    eexists w1, _. split; [exact Hex|]. by apply scope_locals_joined.
Qed.


Lemma owned_unresolved v w this t :
  consistent_with v w -> get this w = Some t ->
  owners t w = 1 /\ resolutions t w = 0.
Proof.
  intros Hc Hg. pose proof (get_Some_valid _ _ _ Hg) as Ha.
  specialize (Hc t). pose proof (owners_set_obj t this None w Ha) as Ho.
  rewrite Hg, holds_same in Ho. unfold started in Hc. simpl in *.
  case_decide; lia.
Qed.

(** C3: a move assignment, or an assignment from a std::thread, to an object
    that owns a worker first joins that worker: the assignment proper is
    carried out in the world the join has left, where the worker has
    completed, has been resolved once and the object is empty.  Only then does
    the object take what is assigned; the previous worker is not dropped. *)
Theorem reassign_waits_first (this other : addr) (v : thread) (t : tid) (w : world) :
  consistent w -> get this w = Some t ->
  exists w1,
    joining_thread.join this w = Ok tt w1
    /\ completed t w1 /\ resolutions t w1 = 1 /\ get this w1 = None
    /\ joining_thread.move_assign this other w
       = std_thread.move_assign this other w1
    /\ joining_thread.assign this v w = std_thread.assign this v w1
    /\ exists w2 w3,
         joining_thread.move_assign this other w = Ok tt w2
         /\ get this w2 = (if decide (this = other) then None else get other w)
         /\ (this <> other -> get other w2 = None)
         /\ completed t w2 /\ resolutions t w2 = 1
         /\ joining_thread.assign this v w = Ok tt w3
         /\ get this w3 = v
         /\ completed t w3 /\ resolutions t w3 = 1.
Proof.
  intros Hc Hg. exists (joined this w).
  pose proof (get_Some_valid _ _ _ Hg) as Ha.
  pose proof (get_joined_same this w) as Hj.
  pose proof (completed_joined None this t w Hc Hg) as Hdone.
  assert (resolutions t (joined this w) = 1) as Hres.
  { rewrite resolutions_joined, Hg, holds_same.
    destruct (owned_unresolved _ _ _ _ Hc Hg) as [_ ->]. done. }
  assert (this < length (objs (joined this w))) as Ha1
    by by rewrite length_objs_joined.
  rewrite move_assign_joined, assign_joined.
  split_and!; try done.
  - by rewrite (join_owned _ _ _ Hg), (joined_owned _ _ _ Hg).
  - unfold std_thread.move_assign, std_thread.joinable. by rewrite Hj.
  - unfold std_thread.assign, std_thread.joinable. by rewrite Hj.
  - eexists _, _. split_and!; try reflexivity; try done.
    + rewrite get_set_obj_eq by by rewrite length_objs_set_obj.
      case_decide as Heq.
      * by subst other.
      * by apply get_joined_other.
    + intros Hne. rewrite get_set_obj_ne by done.
      destruct (decide (other < length (objs (joined this w)))) as [Ho|Ho].
      * by apply get_set_obj_eq.
      * rewrite set_obj_outside by lia. apply get_outside. lia.
    + by apply get_set_obj_eq.
Qed.

(** C4: the constructor of scoped_thread throws the logic_error of line 279
    when it is given a thread that is not joinable, and then no object has been
    created: the world is the one before the call.  Given a joinable thread it
    returns a new object that owns the worker. *)
Theorem adopt_validates (t_ : thread) (w : world) :
  match t_ with
  | None => scoped_thread.ctor t_ w = Throw InvalidHandle w
  | Some t =>
      exists this w',
        scoped_thread.ctor t_ w = Ok this w'
        /\ get this w' = Some t
        /\ length (objs w') = S (length (objs w))
        /\ forall a, a < length (objs w) -> get a w' = get a w
  end.
Proof.
  unfold scoped_thread.ctor, new_obj, std_thread.joinable.
  rewrite get_alloc_new. destruct t_ as [t|]; [|done]. simpl.
  eexists _, _. split; [reflexivity|]. split_and!.
  - apply get_alloc_new.
  - simpl. rewrite length_app. simpl. lia.
  - intros a Ha. by apply get_alloc_old.
Qed.

(** joining_thread, for its part, takes a thread that is not joinable
    (lines 307-309). *)
Lemma joining_thread_adopts_empty w :
  joining_thread.adopt None w
  = Ok (length (objs w)) (set_objs (objs w ++ [None]) w).
Proof. done. Qed.

(** C5: join and detach on an object that owns no worker, be it empty from
    the start or emptied by an earlier join or detach, throw
    std::system_error with std::errc::invalid_argument, which is not the
    exception of the validating constructor; the world they throw from is the
    world they were called in, so the object, the memory and the workers are
    untouched. *)
Theorem not_joinable_fails (this : addr) (w : world) :
  get this w = None
  \/ (exists w0, joining_thread.join this w0 = Ok tt w)
  \/ (exists w0, joining_thread.detach this w0 = Ok tt w) ->
  joining_thread.join this w = Throw NotJoinable w
  /\ joining_thread.detach this w = Throw NotJoinable w
  /\ NotJoinable <> InvalidHandle.
Proof.
  intros H. assert (get this w = None) as Hg.
  { destruct H as [H|[[w0 H]|[w0 H]]]; [done| |].
    - unfold joining_thread.join, std_thread.join in H.
      destruct (get this w0) as [t|] eqn:Hg0; [|done].
      injection H as <-. rewrite get_add_event. apply get_set_obj_eq.
      rewrite objs_finish. by eapply get_Some_valid.
    - unfold joining_thread.detach, std_thread.detach in H.
      destruct (get this w0) as [t|] eqn:Hg0; [|done].
      injection H as <-. rewrite get_add_event. apply get_set_obj_eq.
      rewrite objs_hand_over. by eapply get_Some_valid. }
  split_and!; [by apply join_empty|by apply detach_empty|done].
Qed.


(** A worker that has been resolved is owned by no object. *)
Lemma resolved_unowned w t a :
  consistent w -> 1 <= resolutions t w -> get a w <> Some t.
Proof.
  intros Hc Hr Hg. destruct (owned_unresolved _ _ _ _ Hc Hg) as [_ H0]. lia.
Qed.


(** C9: the destructors of joining_thread and of thread_guard, run on an
    object that owns no worker, return and leave the world as it was: nothing
    is joined, nothing is logged, nothing is thrown, although join itself
    would throw there. *)
Theorem destroy_empty_noop (this : addr) (w : world) :
  get this w = None ->
  joining_thread.dtor this w = Ok tt w
  /\ thread_guard.dtor (thread_guard.ctor this) w = Ok tt w
  /\ joining_thread.join this w = Throw NotJoinable w.
Proof.
  intros Hg. rewrite dtor_joined, guard_dtor_joined. simpl.
  unfold joined. rewrite Hg. split_and!; [done|done|by apply join_empty].
Qed.

(** The destructor of scoped_thread has no such guard (lines 281-284): on
    an object that owns no worker it would terminate the process.  The
    constructor keeps such objects from existing. *)
Lemma scoped_thread_dtor_unguarded this w :
  get this w = None -> scoped_thread.dtor this w = Terminate.
Proof.
  intros Hg. unfold scoped_thread.dtor, mbind, M_bind, noexcept, std_thread.join.
  by rewrite Hg.
Qed.

Lemma objs_ext w1 w2 :
  length (objs w1) = length (objs w2) ->
  (forall a, get a w1 = get a w2) -> objs w1 = objs w2.
Proof.
  intros Hl Hg. apply list_eq. intros a.
  destruct (decide (a < length (objs w1))) as [Ha|Ha].
  - rewrite !get_lookup by lia. by rewrite Hg.
  - rewrite !lookup_ge_None_2 by lia. done.
Qed.

(** C10: swap on two objects exchanges what they own and does nothing else:
    no worker runs a step because of it, nothing is joined or detached, also
    when both objects own a worker; a second swap gives back the world before
    the first. *)
Theorem swap_exchanges (this other : addr) (w : world) :
  this < length (objs w) -> other < length (objs w) ->
  exists w',
    joining_thread.swap this other w = Ok tt w'
    /\ get this w' = get other w
    /\ get other w' = get this w
    /\ (forall a, a <> this -> a <> other -> get a w' = get a w)
    /\ log w' = log w /\ workers w' = workers w /\ mem w' = mem w
    /\ joining_thread.swap this other w' = Ok tt w.
Proof.
  intros Ha Hb.
  set (w' := set_obj other (get this w) (set_obj this (get other w) w)).
  assert (length (objs w') = length (objs w)) as Hl
    by (unfold w'; by rewrite !length_objs_set_obj).
  assert (get other w' = get this w) as Ho.
  { unfold w'. apply get_set_obj_eq. by rewrite length_objs_set_obj. }
  assert (get this w' = get other w) as Ht.
  { destruct (decide (other = this)) as [->|Hne]; [done|].
    unfold w'. rewrite get_set_obj_ne by done. by apply get_set_obj_eq. }
  assert (forall a, a <> this -> a <> other -> get a w' = get a w) as Hrest.
  { intros a H1 H2. unfold w'. by rewrite !get_set_obj_ne. }
  exists w'. split_and!; try done.
  unfold joining_thread.swap, noexcept, std_thread.swap. f_equal.
  rewrite Ho, Ht.
  set (w'' := set_obj other (get other w) (set_obj this (get this w) w')).
  assert (objs w'' = objs w) as Hobjs.
  { apply objs_ext.
    - unfold w''. by rewrite !length_objs_set_obj.
    - intros a. unfold w''.
      destruct (decide (a = other)) as [->|H2].
      + apply get_set_obj_eq. rewrite length_objs_set_obj. lia.
      + rewrite get_set_obj_ne by done.
        destruct (decide (a = this)) as [->|H1].
        * apply get_set_obj_eq. lia.
        * rewrite get_set_obj_ne by done. by apply Hrest. }
  destruct w as [m ws os l]. unfold w'' in *. unfold set_obj, set_objs in *.
  simpl in *. by rewrite Hobjs.
Qed.

(** ** Arguments *)

Lemma bind_args_spec args m env m' :
  std_thread.bind_args args m = (env, m') ->
  m `prefix_of` m'
  /\ length env = length args
  /\ forall i a l', args !! i = Some a -> env !! i = Some l' -> bound m m' a l'.
Proof.
  revert m env m'. induction args as [|a args IH]; intros m env m' H.
  - simpl in H. injection H as <- <-. split_and!; [done|done|].
    intros i a l' Ha. by rewrite lookup_nil in Ha.
  - simpl in H.
    destruct (std_thread.bind_arg a m) as [l1 m1] eqn:Ha.
    destruct (std_thread.bind_args args m1) as [ls m2] eqn:Hrest.
    injection H as <- <-.
    destruct (IH _ _ _ Hrest) as (Hpre & Hlen & Hpos).
    assert (m `prefix_of` m1) as Hpre1.
    { destruct a; simpl in Ha; injection Ha as <- <-;
        [by apply prefix_app_r|by apply prefix_app_r|done]. }
    split_and!; [by etrans|simpl; by rewrite Hlen|].
    intros [|i] b l'; simpl; intros Hb Hl.
    + injection Hb as <-. injection Hl as <-.
      destruct a as [x|v|x]; simpl in Ha; injection Ha as <- <-; simpl.
      * split; [done|]. intros Hx. destruct Hpre as [k ->].
        rewrite <- app_assoc. cbn [app]. rewrite list_lookup_middle by done.
        by rewrite (list_lookup_lookup_total_lt m x Hx).
      * split; [done|]. destruct Hpre as [k ->].
        rewrite <- app_assoc. cbn [app]. by rewrite list_lookup_middle.
      * done.
    + specialize (Hpos i b l' Hb Hl).
      pose proof (prefix_length _ _ Hpre1) as Hle.
      destruct b as [x|v|x]; simpl in *.
      * destruct Hpos as [Hfresh Hval]. split; [lia|]. intros Hx.
        rewrite Hval by lia. destruct Hpre1 as [k ->].
        by rewrite lookup_app_l.
      * destruct Hpos as [Hfresh Hval]. split; [lia|done].
      * done.
Qed.

(** A parameter bound to a cell the caller had is one passed under the
    marker. *)
Lemma bind_args_shared args m env m' l :
  std_thread.bind_args args m = (env, m') ->
  l ∈ env -> l < length m -> std_ref l ∈ args.
Proof.
  intros H (i & Hi)%list_elem_of_lookup_1 Hl.
  destruct (bind_args_spec _ _ _ _ H) as (_ & Hlen & Hpos).
  destruct (lookup_lt_is_Some_2 args i) as [a Ha].
  { rewrite <- Hlen. by eapply lookup_lt_Some. }
  specialize (Hpos i a l Ha Hi).
  destruct a as [x|v|x]; simpl in Hpos; [lia|lia|].
  subst x. by eapply list_elem_of_lookup_2.
Qed.

Lemma exec_instr_frame env i m l :
  l ∉ env -> exec_instr env i m !! l = m !! l.
Proof.
  intros Hl. unfold exec_instr.
  destruct (env !! target i) as [l'|] eqn:Ht; [|done].
  apply list_lookup_insert_ne. intros ->.
  apply Hl. by eapply list_elem_of_lookup_2.
Qed.

Lemma env_of_sched t t' w : env_of t (sched t' w) = env_of t w.
Proof.
  unfold env_of, sched.
  destruct (workers w !! t') as [wk'|] eqn:Ht'; [|done].
  destruct (w_code wk') as [|i rest]; [done|]. simpl.
  destruct (decide (t' = t)) as [->|Hne].
  - rewrite list_lookup_insert_eq by by eapply lookup_lt_Some.
    by rewrite Ht'.
  - by rewrite list_lookup_insert_ne.
Qed.

Lemma mem_sched_frame t w l :
  l ∉ env_of t w -> mem (sched t w) !! l = mem w !! l.
Proof.
  unfold env_of, sched.
  destruct (workers w !! t) as [wk|]; [|done].
  destruct (w_code wk) as [|i rest]; [done|]. simpl.
  apply exec_instr_frame.
Qed.

Lemma mem_iter_sched_frame t w l n :
  l ∉ env_of t w -> mem (Nat.iter n (sched t) w) !! l = mem w !! l.
Proof.
  intros Hl. induction n as [|n IH]; [done|]. simpl.
  rewrite mem_sched_frame; [done|].
  clear IH. induction n as [|n IH]; [done|].
  simpl. by rewrite env_of_sched.
Qed.

(** Lines 302-305. *)
Lemma ctor_started func args w env m :
  std_thread.bind_args args (mem w) = (env, m) ->
  joining_thread.ctor func args w
  = Ok (length (objs w))
       (World m (workers w ++ [Worker func env false])
          (objs w ++ [Some (length (workers w))]) (log w)).
Proof.
  intros H. unfold joining_thread.ctor, mbind, M_bind, std_thread.ctor.
  by rewrite H.
Qed.

(** C7: the constructor of joining_thread hands its arguments to
    std::thread, which binds every parameter of the callable to a cell of the
    worker's own, holding a copy of the argument, unless the argument was
    passed under std::ref, in which case the parameter is the caller's cell
    itself.  So a cell of the caller that is not passed under std::ref keeps
    its value through every step of the worker, up to and including its last
    one. *)
Theorem captured_by_value (func : callable) (args : list arg) (w : world) (l : loc) :
  l < length (mem w) -> std_ref l ∉ args ->
  exists this t w' wk,
    joining_thread.ctor func args w = Ok this w'
    /\ get this w' = Some t
    /\ workers w' !! t = Some wk
    /\ w_code wk = func
    /\ (forall i x, args !! i = Some (by_value x) -> x < length (mem w) ->
          exists l', w_env wk !! i = Some l'
                     /\ length (mem w) <= l'
                     /\ mem w' !! l' = mem w !! x)
    /\ (forall i x, args !! i = Some (std_ref x) -> w_env wk !! i = Some x)
    /\ (forall n, mem (Nat.iter n (sched t) w') !! l = mem w !! l)
    /\ mem (finish t w') !! l = mem w !! l.
Proof.
  intros Hl Hnot.
  destruct (std_thread.bind_args args (mem w)) as [env m] eqn:Hb.
  destruct (bind_args_spec _ _ _ _ Hb) as (Hpre & Hlen & Hpos).
  set (w' := World m (workers w ++ [Worker func env false])
               (objs w ++ [Some (length (workers w))]) (log w)).
  assert (workers w' !! length (workers w) = Some (Worker func env false))
    as Hwk by (simpl; by rewrite list_lookup_middle).
  assert (l ∉ env_of (length (workers w)) w') as Hframe.
  { unfold env_of. rewrite Hwk. simpl. intros Hin.
    apply Hnot. by eapply bind_args_shared. }
  assert (mem w' !! l = mem w !! l) as Hsame.
  { simpl. destruct Hpre as [k ->]. by rewrite lookup_app_l. }
  assert (forall n, mem (Nat.iter n (sched (length (workers w))) w') !! l
                    = mem w !! l) as Hsteps.
  { intros n. by rewrite mem_iter_sched_frame. }
  exists (length (objs w)), (length (workers w)), w', (Worker func env false).
  split_and!; try done.
  - by apply ctor_started.
  - unfold get. simpl. by rewrite list_lookup_total_middle.
  - intros i x Hi Hx.
    destruct (lookup_lt_is_Some_2 env i) as [l' Hl'].
    { rewrite Hlen. by eapply lookup_lt_Some. }
    exists l'. specialize (Hpos i _ l' Hi Hl'). simpl in Hpos.
    destruct Hpos as [Hfresh Hval]. split_and!; [done|done|by apply Hval].
  - intros i x Hi.
    destruct (lookup_lt_is_Some_2 env i) as [l' Hl'].
    { rewrite Hlen. by eapply lookup_lt_Some. }
    specialize (Hpos i _ l' Hi Hl'). simpl in Hpos. by subst l'.
  - rewrite finish_sched. apply Hsteps.
Qed.

(** ** The source's own scenarios *)

(** Lines 237-241: after the first four transfers thread1 owns the second
    worker, thread2 is empty and thread3 owns the first worker. *)
Example transfers_before_last :
  exists w, transfers false empty_world = Ok (0, 1, 2) w
            /\ get 0 w = Some 1 /\ get 1 w = None /\ get 2 w = Some 0.
Proof. eexists. by vm_compute. Qed.

(** Line 242: the last assignment finds thread1 joinable. *)
Example transfers_last_terminates : transfers true empty_world = Terminate.
Proof. reflexivity. Qed.

(** With joining_thread in the place of std::thread the same assignment joins
    the second worker and completes. *)
Example transfers_joining :
  exists w,
    run_body [s_ctor [] []; s_move_ctor 0; s_assign 0 [] []; s_default;
              s_move_assign 2 1; s_move_assign 0 2] empty_world = Ok tt w
    /\ get 0 w = Some 0 /\ get 1 w = None /\ get 2 w = None
    /\ log w = [ev_join 1].
Proof. eexists. by vm_compute. Qed.

(** X1: f2 of lines 134-141: whether the call returns or throws, the guard
    has joined the worker when f2 is left, and the destructor of the thread
    that follows finds it empty. *)
Lemma f2_joins my_func args (outcome_of_call : option exn) w :
  consistent w ->
  exists w',
    f2 my_func args outcome_of_call w
    = match outcome_of_call with Some e => Throw e w' | None => Ok tt w' end
    /\ completed (length (workers w)) w'
    /\ get (length (objs w)) w' = None
    /\ resolutions (length (workers w)) w' = 1.
Proof.
  intros Hc. unfold f2, mbind, M_bind at 1 2.
  destruct (spawn_returns my_func args w) as (v & w1 & Hs). rewrite Hs.
  destruct (spawn_consistent _ _ _ _ _ Hc Hs) as [Hc1 Ho].
  assert (v = Some (length (workers w))) as ->.
  { unfold std_thread.ctor in Hs.
    destruct (std_thread.bind_args args (mem w)); by injection Hs as <- _. }
  unfold alloc, new_obj. cbn [fst snd]. rewrite Ho.
  set (w2 := set_objs (objs w ++ [Some (length (workers w))]) w1).
  assert (consistent w2) as Hc2.
  { unfold w2. rewrite <- Ho. by apply consistent_alloc. }
  assert (get (length (objs w)) w2 = Some (length (workers w))) as Hg.
  { unfold w2. rewrite <- Ho. apply get_alloc_new. }
  exists (joined (length (objs w)) w2).
  pose proof (get_joined_same (length (objs w)) w2) as Hj.
  split_and!.
  - unfold finally, mbind, M_bind, mret, M_ret, throw.
    destruct outcome_of_call as [e|]; rewrite guard_dtor_joined; simpl;
      unfold std_thread.dtor, std_thread.joinable; by rewrite Hj.
  - eapply completed_joined; [exact Hc2|exact Hg].
  - done.
  - rewrite resolutions_joined, Hg, holds_same.
    destruct (owned_unresolved _ _ _ _ Hc2 Hg) as [_ ->]. done.
Qed.

(** An argument under std::ref is the caller's cell: the worker's increment
    shows in it.  The same argument by value leaves the cell at 10 and the
    increment in the copy. *)
Example std_ref_shares :
  exists this w,
    joining_thread.ctor [incr 0] [std_ref 0] demo_world = Ok this w
    /\ mem (finish 1 w) = [11%Z].
Proof. eexists _, _. by vm_compute. Qed.

Example by_value_copies :
  exists this w,
    joining_thread.ctor [incr 0] [by_value 0] demo_world = Ok this w
    /\ mem (finish 1 w) = [10%Z; 11%Z].
Proof. eexists _, _. by vm_compute. Qed.

(** ** The claims at the demo world *)

Lemma demo_consistent : consistent demo_world.
Proof.
  intros t. unfold owners, resolutions, started. simpl.
  repeat case_decide; lia.
Qed.

Lemma destroy_waits_witness :
  consistent demo_world
  /\ well_scoped (length (objs demo_world)) demo_body = true
  /\ exists w1 w2,
       exits (run_body demo_body demo_world) (scope demo_body demo_world) w1 w2
       /\ forall this t, length (objs demo_world) <= this ->
            get this w1 = Some t -> completed t w2 /\ get this w2 = None.
Proof.
  split; [exact demo_consistent|]. split; [reflexivity|].
  exact (proj2 (destroy_waits demo_body demo_world demo_consistent eq_refl)).
Defined.

Lemma empty_consistent : consistent empty_world.
Proof. intros t. by vm_compute. Qed.


Lemma reassign_waits_first_witness :
  consistent demo_world
  /\ get 0 demo_world = Some 0
  /\ exists w1,
       joining_thread.join 0 demo_world = Ok tt w1
       /\ completed 0 w1 /\ resolutions 0 w1 = 1 /\ get 0 w1 = None
       /\ joining_thread.move_assign 0 1 demo_world
          = std_thread.move_assign 0 1 w1
       /\ joining_thread.assign 0 None demo_world = std_thread.assign 0 None w1
       /\ exists w2 w3,
            joining_thread.move_assign 0 1 demo_world = Ok tt w2
            /\ get 0 w2 = (if decide (0 = 1) then None else get 1 demo_world)
            /\ (0 <> 1 -> get 1 w2 = None)
            /\ completed 0 w2 /\ resolutions 0 w2 = 1
            /\ joining_thread.assign 0 None demo_world = Ok tt w3
            /\ get 0 w3 = None
            /\ completed 0 w3 /\ resolutions 0 w3 = 1.
Proof.
  split; [exact demo_consistent|]. split; [reflexivity|].
  exact (reassign_waits_first 0 1 None 0 demo_world demo_consistent eq_refl).
Defined.

(** The second of two joins on the same object. *)
Lemma not_joinable_fails_witness :
  joining_thread.join 0 demo_world = Ok tt demo_joined
  /\ joining_thread.join 0 demo_joined = Throw NotJoinable demo_joined
  /\ joining_thread.detach 0 demo_joined = Throw NotJoinable demo_joined
  /\ NotJoinable <> InvalidHandle.
Proof.
  split; [reflexivity|].
  exact (not_joinable_fails 0 demo_joined
           (or_intror (or_introl (ex_intro _ demo_world eq_refl)))).
Defined.


Lemma not_marked : std_ref 0 ∉ [by_value 0; temporary 5%Z].
Proof.
  intros H. apply elem_of_cons in H as [H|H]; [discriminate|].
  apply elem_of_cons in H as [H|H]; [discriminate|].
  by apply elem_of_nil in H.
Qed.

Lemma captured_by_value_witness :
  0 < length (mem demo_world)
  /\ (std_ref 0 ∉ [by_value 0; temporary 5%Z])
  /\ exists this t w' wk,
       joining_thread.ctor [incr 0; incr 1] [by_value 0; temporary 5%Z] demo_world
       = Ok this w'
       /\ get this w' = Some t
       /\ workers w' !! t = Some wk
       /\ w_code wk = [incr 0; incr 1]
       /\ (forall i x,
             [by_value 0; temporary 5%Z] !! i = Some (by_value x) ->
             x < length (mem demo_world) ->
             exists l', w_env wk !! i = Some l'
                        /\ length (mem demo_world) <= l'
                        /\ mem w' !! l' = mem demo_world !! x)
       /\ (forall i x,
             [by_value 0; temporary 5%Z] !! i = Some (std_ref x) ->
             w_env wk !! i = Some x)
       /\ (forall n, mem (Nat.iter n (sched t) w') !! 0 = mem demo_world !! 0)
       /\ mem (finish t w') !! 0 = mem demo_world !! 0.
Proof.
  split; [simpl; lia|]. split; [exact not_marked|].
  refine (captured_by_value [incr 0; incr 1] [by_value 0; temporary 5%Z]
            demo_world 0 _ not_marked).
  simpl; lia.
Defined.

Lemma destroy_empty_noop_witness :
  get 1 demo_world = None
  /\ joining_thread.dtor 1 demo_world = Ok tt demo_world
  /\ thread_guard.dtor (thread_guard.ctor 1) demo_world = Ok tt demo_world
  /\ joining_thread.join 1 demo_world = Throw NotJoinable demo_world.
Proof.
  split; [reflexivity|]. exact (destroy_empty_noop 1 demo_world eq_refl).
Defined.

Lemma swap_exchanges_witness :
  0 < length (objs demo_world) /\ 1 < length (objs demo_world)
  /\ exists w',
       joining_thread.swap 0 1 demo_world = Ok tt w'
       /\ get 0 w' = get 1 demo_world
       /\ get 1 w' = get 0 demo_world
       /\ (forall a, a <> 0 -> a <> 1 -> get a w' = get a demo_world)
       /\ log w' = log demo_world /\ workers w' = workers demo_world
       /\ mem w' = mem demo_world
       /\ joining_thread.swap 0 1 w' = Ok tt demo_world.
Proof.
  split; [simpl; lia|]. split; [simpl; lia|].
  refine (swap_exchanges 0 1 demo_world _ _); simpl; lia.
Defined.

(** ** What the caller sees after a join *)

Lemma finish_sched_same t w : finish t (sched t w) = finish t w.
Proof.
  unfold finish, sched.
  destruct (workers w !! t) as [[code env d]|] eqn:Hwk; [|by rewrite Hwk].
  destruct code as [|i code]; simpl; [by rewrite Hwk|].
  rewrite list_lookup_insert_eq by by eapply lookup_lt_Some.
  simpl. by rewrite list_insert_insert_eq.
Qed.

Lemma finish_after_steps t k w : finish t (Nat.iter k (sched t) w) = finish t w.
Proof.
  revert w. induction k as [|k IH]; intros w; [done|].
  by rewrite Nat.iter_succ_r, IH, finish_sched_same.
Qed.

Lemma objs_steps t k w : objs (Nat.iter k (sched t) w) = objs w.
Proof.
  induction k as [|k IH]; [done|]. by rewrite Nat.iter_succ, objs_sched.
Qed.

Lemma sched_completed t w : completed t w -> sched t w = w.
Proof.
  intros (wk & Hwk & Hcode). unfold sched. by rewrite Hwk, Hcode.
Qed.

Lemma steps_completed t k w : completed t w -> Nat.iter k (sched t) w = w.
Proof.
  intros Hc. induction k as [|k IH]; [done|].
  by rewrite Nat.iter_succ, IH, sched_completed.
Qed.

(** C8: when join on an object that owns a worker returns, the worker has
    nothing left to run and the memory the caller goes on with is the memory
    in which the whole of what the worker had to do has been done, however
    many of its steps the scheduler had given it before the join was called;
    no later step of that worker changes anything.  Between two workers
    nothing is ordered: the same two workers on the same cell, joined in the
    same order, leave 2 in the cell when the scheduler runs the first before
    the second and 1 when it runs the second before the first. *)
Theorem join_makes_effects_visible (this : addr) (t : tid) (k : nat) (w : world) :
  consistent w -> get this w = Some t ->
  (exists wk w',
     workers w !! t = Some wk
     /\ joining_thread.join this (Nat.iter k (sched t) w) = Ok tt w'
     /\ mem w' = run_code (w_env wk) (w_code wk) (mem w)
     /\ remaining t w' = 0
     /\ completed t w'
     /\ forall n, Nat.iter n (sched t) w' = w')
  /\ exists wa wb,
       run_body [s_sched 0; s_sched 1; s_join 0; s_join 1] racing_world
       = Ok tt wa
       /\ run_body [s_sched 1; s_sched 0; s_join 0; s_join 1] racing_world
          = Ok tt wb
       /\ mem wa = [2%Z] /\ mem wb = [1%Z].
Proof.
  intros Hc Hg. split; [|eexists _, _; by vm_compute].
  pose proof (get_Some_valid _ _ _ Hg) as Ha.
  pose proof (owned_started _ _ _ _ Hc Ha Hg) as Ht.
  destruct (lookup_lt_is_Some_2 _ _ Ht) as [wk Hwk].
  set (w' := add_event (ev_join t) (set_obj this None (finish t w))).
  assert (workers w' !! t = Some (Worker [] (w_env wk) (w_detached wk)))
    as Hwk'.
  { unfold w', finish. rewrite Hwk. simpl.
    by apply list_lookup_insert_eq. }
  assert (completed t w') as Hdone by (eexists; split; [exact Hwk'|done]).
  exists wk, w'. split; [done|]. split; [|split; [|split; [|split]]].
  - assert (get this (Nat.iter k (sched t) w) = Some t) as Hgk.
    { unfold get. by rewrite objs_steps. }
    by rewrite (join_owned _ _ _ Hgk), finish_after_steps.
  - unfold w', finish. by rewrite Hwk.
  - unfold remaining. by rewrite Hwk'.
  - done.
  - intros n. by apply steps_completed.
Qed.

Lemma join_makes_effects_visible_witness :
  consistent demo_world
  /\ get 0 demo_world = Some 0
  /\ exists wk w',
       workers demo_world !! 0 = Some wk
       /\ joining_thread.join 0 (Nat.iter 1 (sched 0) demo_world) = Ok tt w'
       /\ mem w' = run_code (w_env wk) (w_code wk) (mem demo_world)
       /\ remaining 0 w' = 0
       /\ completed 0 w'
       /\ forall n, Nat.iter n (sched 0) w' = w'.
Proof.
  split; [exact demo_consistent|]. split; [reflexivity|].
  exact (proj1 (join_makes_effects_visible 0 0 1 demo_world
                  demo_consistent eq_refl)).
Defined.

(** * The rest of the file *)

(** ** parallel_accumulate *)

Lemma ulong_small (z : Z) : (0 <= z < 2 ^ 64)%Z -> ulong z = z.
Proof. intros H. unfold ulong. by apply Z.mod_small. Qed.

Lemma max_threads_small (len : Z) :
  (0 <= len)%Z -> (len + 24 < 2 ^ 64)%Z ->
  max_threads len = ((len + 24) / 25)%Z.
Proof.
  intros H0 H1. unfold max_threads, min_per_thread, ulong.
  rewrite Zminus_mod_idemp_l.
  rewrite Z.mod_small by lia. f_equal. lia.
Qed.

Lemma num_threads_bounds (hw len : Z) :
  (0 <= hw)%Z -> (0 < len)%Z -> (len + 24 < 2 ^ 64)%Z ->
  (1 <= num_threads hw len)%Z
  /\ (num_threads hw len <= (len + 24) / 25)%Z
  /\ (num_threads hw len <= if decide (hw <> 0%Z) then hw else 2)%Z
  /\ (25 * num_threads hw len <= len + 24)%Z
  /\ (num_threads hw len <= len)%Z.
Proof.
  intros Hhw H0 H1. unfold num_threads.
  rewrite max_threads_small by lia.
  assert (1 <= (len + 24) / 25)%Z as Hm
    by (apply Z.div_le_lower_bound; lia).
  assert (25 * ((len + 24) / 25) <= len + 24)%Z as Hd
    by (apply Z.mul_div_le; lia).
  case_decide; split_and!; lia.
Qed.

Section parallel_accumulate_facts.

Context {T : Type} (plus : T -> T -> T) (T0 : T).

Lemma launch_spec n i size (start : list T) ts rest :
  launch n i size start = (ts, rest) ->
  concat (block <$> ts) ++ rest = start
  /\ length ts = n
  /\ forall k t, ts !! k = Some t -> slot t = i + k.
Proof.
  revert i start ts rest. induction n as [|n IH]; intros i start ts rest H.
  - simpl in H. injection H as <- <-. split_and!; [done|done|].
    intros k t Hk. by rewrite lookup_nil in Hk.
  - simpl in H.
    destruct (launch n (S i) size (drop size start)) as [ts' rest'] eqn:Hl.
    injection H as <- <-.
    destruct (IH _ _ _ _ Hl) as (Hcat & Hlen & Hslot).
    split_and!.
    + rewrite fmap_cons. cbn [concat block].
      rewrite <- app_assoc, Hcat. apply take_drop.
    + simpl. by rewrite Hlen.
    + intros [|k] t Hk; simpl in Hk.
      * injection Hk as <-. simpl. lia.
      * rewrite (Hslot k t Hk). lia.
Qed.

Lemma launch_lengths n i size (start : list T) ts rest :
  launch n i size start = (ts, rest) ->
  n * size <= length start ->
  (forall t, t ∈ ts -> length (block t) = size)
  /\ length rest = length start - n * size.
Proof.
  revert i start ts rest. induction n as [|n IH]; intros i start ts rest H Hle.
  - simpl in H. injection H as <- <-. split; [|lia].
    intros t Ht. by apply elem_of_nil in Ht.
  - simpl in H.
    destruct (launch n (S i) size (drop size start)) as [ts' rest'] eqn:Hl.
    injection H as <- <-.
    destruct (IH _ _ _ _ Hl) as (Hin & Hrest).
    { rewrite length_drop. lia. }
    split.
    + intros t [->|Ht]%elem_of_cons; [|by apply Hin].
      simpl. rewrite length_take. lia.
    + rewrite Hrest, length_drop. lia.
Qed.

(** Tasks that write the elements of [results] one after the other leave in
    each what accumulate_block makes of it. *)
Lemma run_in_order (ts : list (@task T)) (done rs : list T) :
  (forall k t, ts !! k = Some t -> slot t = length done + k) ->
  length rs = length ts ->
  foldl (run plus) (done ++ rs) ts
  = done ++ zip_with (fun r t => accumulate_block plus (block t) r) rs ts.
Proof.
  revert done rs. induction ts as [|t ts IH]; intros done rs Hslot Hlen.
  - destruct rs; [|done]. done.
  - destruct rs as [|r rs]; [done|]. simpl in Hlen.
    simpl. unfold run at 2. rewrite (Hslot 0 t eq_refl).
    rewrite alter_app_r. simpl.
    rewrite (cons_middle _ done), app_assoc. rewrite IH.
    + by rewrite <- app_assoc.
    + intros k t' Hk. rewrite (Hslot (S k) t' Hk), length_app. simpl. lia.
    + lia.
Qed.

Lemma run_commute (rs : list T) (a b : @task T) :
  slot a <> slot b -> run plus (run plus rs a) b = run plus (run plus rs b) a.
Proof.
  intros Hne. unfold run. apply list_eq. intros i.
  rewrite !list_lookup_alter. repeat case_decide; subst; done.
Qed.

(** The order in which tasks with different slots run does not show in
    [results]. *)
Lemma run_any_order (ts1 ts2 : list (@task T)) (rs : list T) :
  ts1 ≡ₚ ts2 -> NoDup (slot <$> ts1) ->
  foldl (run plus) rs ts1 = foldl (run plus) rs ts2.
Proof.
  intros Hp. revert rs.
  induction Hp as [|x l l' Hp IH|x y l|l l' l'' Hp1 IH1 Hp2 IH2];
    intros rs Hnd.
  - done.
  - simpl. apply IH. rewrite fmap_cons in Hnd. by apply NoDup_cons in Hnd as [_ ?].
  - simpl. rewrite run_commute; [done|].
    rewrite !fmap_cons in Hnd. apply NoDup_cons in Hnd as [Hn _].
    intros Heq. apply Hn. rewrite Heq. apply list_elem_of_here.
  - rewrite IH1 by done. apply IH2. by rewrite <- Hp1.
Qed.

Lemma zip_with_replicate {A B} (f : A -> @task T -> B) (x : A) (ts : list task) :
  zip_with f (replicate (length ts) x) ts = (fun t => f x t) <$> ts.
Proof. induction ts as [|t ts IH]; [done|]. simpl. by rewrite IH. Qed.

(** What [tasks] is made of when the range is not empty and its length
    leaves room for the rounding of lines 402-403. *)
Lemma tasks_shape (hw : nat) (range : list T) :
  0 < length range -> (Z.of_nat (length range) + 24 < 2 ^ 64)%Z ->
  exists n size threads rest,
    Z.of_nat n = num_threads (Z.of_nat hw) (Z.of_nat (length range))
    /\ Z.of_nat size = block_size (Z.of_nat hw) (Z.of_nat (length range))
    /\ 1 <= n /\ n * size <= length range /\ length range < n * size + n
    /\ launch (n - 1) 0 size range = (threads, rest)
    /\ tasks hw range = threads ++ [Task (n - 1) rest].
Proof.
  intros Hpos Hfit.
  set (len := Z.of_nat (length range)) in *.
  destruct (num_threads_bounds (Z.of_nat hw) len) as (H1 & _ & _ & _ & Hle);
    [lia..|].
  set (nz := num_threads (Z.of_nat hw) len) in *.
  assert (0 <= len / nz)%Z as Hs0 by (apply Z.div_pos; lia).
  assert (nz * (len / nz) <= len)%Z as Hmul by (apply Z.mul_div_le; lia).
  assert (len < nz * (len / nz) + nz)%Z as Hrem.
  { pose proof (Z.mod_pos_bound len nz ltac:(lia)).
    pose proof (Z.div_mod len nz ltac:(lia)). lia. }
  exists (Z.to_nat nz), (Z.to_nat (len / nz)).
  destruct (launch (Z.to_nat nz - 1) 0 (Z.to_nat (len / nz)) range)
    as [threads rest] eqn:Hl.
  exists threads, rest.
  assert (Z.to_nat (ulong (nz - 1)) = Z.to_nat nz - 1) as Hn1.
  { rewrite ulong_small by lia. lia. }
  assert (Z.to_nat nz * Z.to_nat (len / nz) <= length range) as Hnat1.
  { apply Nat2Z.inj_le. rewrite Nat2Z.inj_mul, !Z2Nat.id by lia.
    fold len. lia. }
  assert (length range < Z.to_nat nz * Z.to_nat (len / nz) + Z.to_nat nz)
    as Hnat2.
  { apply Nat2Z.inj_lt.
    rewrite Nat2Z.inj_add, Nat2Z.inj_mul, !Z2Nat.id by lia. fold len. lia. }
  split_and!; [lia| |lia|done|done|done|].
  - unfold block_size. fold len nz. lia.
  - unfold tasks. fold len. rewrite (ulong_small len) by lia. fold nz.
    unfold block_size. fold nz. rewrite Hn1, Hl. done.
Qed.

Lemma accumulate_blocks (init : T) (ts : list (@task T)) :
  (forall x y z, plus x (plus y z) = plus (plus x y) z) ->
  (forall x, plus x T0 = x) ->
  accumulate plus ((fun t => accumulate_block plus (block t) T0) <$> ts) init
  = accumulate plus (concat (block <$> ts)) init.
Proof.
  intros Hassoc Hid. unfold accumulate_block, accumulate.
  assert (forall l a b, foldl plus (plus a b) l = plus a (foldl plus b l))
    as Hshift.
  { induction l as [|x l IH]; intros a b; [done|].
    simpl. by rewrite <- Hassoc, IH. }
  revert init. induction ts as [|t ts IH]; intros init; [done|].
  rewrite !fmap_cons. cbn [foldl concat]. rewrite foldl_app, IH.
  f_equal. by rewrite <- Hshift, Hid.
Qed.

(** The blocks, in nat. *)
Lemma tasks_blocks (hw : nat) (range : list T) :
  0 < length range -> (Z.of_nat (length range) + 24 < 2 ^ 64)%Z ->
  exists n size,
    Z.of_nat n = num_threads (Z.of_nat hw) (Z.of_nat (length range))
    /\ Z.of_nat size = block_size (Z.of_nat hw) (Z.of_nat (length range))
    /\ length (tasks hw range) = n /\ 1 <= n
    /\ 25 * n <= length range + 24
    /\ n <= (if decide (hw = 0) then 2 else hw)
    /\ n * size <= length range < n * size + n
    /\ concat (block <$> tasks hw range) = range
    /\ (forall k t, tasks hw range !! k = Some t -> slot t = k)
    /\ (forall k t, tasks hw range !! k = Some t -> S k < n ->
          length (block t) = size)
    /\ (forall t, tasks hw range !! (n - 1) = Some t ->
          length (block t) = length range - (n - 1) * size).
Proof.
  intros Hpos Hfit.
  destruct (tasks_shape hw range Hpos Hfit)
    as (n & size & threads & rest & Hn & Hsize & H1 & Hle & Hlt & Hl & Ht).
  destruct (launch_spec _ _ _ _ _ _ Hl) as (Hcat & Hlen & Hslot).
  destruct (launch_lengths _ _ _ _ _ _ Hl) as (Hblocks & Hrest); [nia|].
  destruct (num_threads_bounds (Z.of_nat hw) (Z.of_nat (length range)))
    as (_ & _ & Hhw & H25 & _); [lia..|].
  rewrite <- Hn in Hhw, H25.
  exists n, size. rewrite Ht.
  split_and!; try done.
  - rewrite length_app, Hlen. simpl. lia.
  - lia.
  - repeat case_decide; lia.
  - rewrite fmap_app, concat_app. simpl. by rewrite app_nil_r.
  - intros k t Hk. apply lookup_app_Some in Hk as [Hk|[Hge Hk]].
    + by rewrite (Hslot k t Hk).
    + rewrite Hlen in *. apply list_lookup_singleton_Some in Hk as [Hk <-].
      simpl. lia.
  - intros k t Hk Hlast. rewrite lookup_app_l in Hk by lia.
    apply Hblocks. by eapply list_elem_of_lookup_2.
  - intros t Hk. rewrite lookup_app_r in Hk by lia.
    rewrite Hlen, Nat.sub_diag in Hk. injection Hk as <-. simpl. lia.
Qed.

(** X7: for a range that is not empty, parallel_accumulate uses at least one
    thread of control and at most as many as the hardware reports (two when it
    reports none), and no more than one for every 25 elements begun: a range of
    up to 25 elements is summed by the caller alone, no thread being
    started. *)
Theorem thread_count_bounds (hw : nat) (range : list T) :
  0 < length range -> (Z.of_nat (length range) + 24 < 2 ^ 64)%Z ->
  Z.of_nat (length (tasks hw range))
  = num_threads (Z.of_nat hw) (Z.of_nat (length range))
  /\ 1 <= length (tasks hw range)
  /\ length (tasks hw range) <= (if decide (hw = 0) then 2 else hw)
  /\ 25 * length (tasks hw range) <= length range + 24
  /\ (length range <= 25 -> tasks hw range = [Task 0 range]).
Proof.
  intros Hpos Hfit.
  destruct (tasks_blocks hw range Hpos Hfit)
    as (n & size & Hn & Hsize & Hlen & H1 & H25 & Hhw & Hdiv & Hcat & Hslot
        & _ & Hlast).
  rewrite Hlen.
  split_and!; [done|done|done|done|].
  - intros Hsmall. assert (n = 1) as -> by lia.
    destruct (tasks hw range) as [|t [|t' ts]] eqn:Ht; simplify_eq/=.
    rewrite app_nil_r. specialize (Hslot 0 t eq_refl).
    destruct t as [s b]. simpl in *. by subst.
Qed.

(** X8: the blocks handed out are consecutive pieces of the range and
    together make it up; the k-th thread of control writes results[k]; every
    block but the last has exactly block_size elements, and the last, which
    the caller sums itself, has block_size elements and the remainder of the
    division, fewer than the number of threads. *)
Theorem blocks_partition (hw : nat) (range : list T) :
  0 < length range -> (Z.of_nat (length range) + 24 < 2 ^ 64)%Z ->
  concat (block <$> tasks hw range) = range
  /\ (forall k t, tasks hw range !! k = Some t -> slot t = k)
  /\ (forall k t, tasks hw range !! k = Some t ->
        S k < length (tasks hw range) ->
        Z.of_nat (length (block t))
        = block_size (Z.of_nat hw) (Z.of_nat (length range)))
  /\ (forall t, last (tasks hw range) = Some t ->
        (block_size (Z.of_nat hw) (Z.of_nat (length range))
         <= Z.of_nat (length (block t))
         < block_size (Z.of_nat hw) (Z.of_nat (length range))
           + Z.of_nat (length (tasks hw range)))%Z).
Proof.
  intros Hpos Hfit.
  destruct (tasks_blocks hw range Hpos Hfit)
    as (n & size & Hn & Hsize & Hlen & H1 & _ & _ & Hdiv & Hcat & Hslot
        & Hmid & Hlast).
  rewrite Hlen, <- Hsize. split_and!; [done|done| |].
  - intros k t Hk Hlt. by rewrite (Hmid k t Hk Hlt).
  - intros t Ht. rewrite last_lookup, Hlen in Ht.
    replace (Init.Nat.pred n) with (n - 1) in Ht by lia.
    rewrite (Hlast t Ht). nia.
Qed.

(** X9: min_per_thread is not a minimum.  When more than one thread of
    control is used every one of them gets at least 13 elements; 25 are not
    guaranteed (26 elements on two threads make two blocks of 13). *)
Theorem blocks_at_least_13 (hw : nat) (range : list T) :
  0 < length range -> (Z.of_nat (length range) + 24 < 2 ^ 64)%Z ->
  2 <= length (tasks hw range) ->
  forall t, t ∈ tasks hw range -> 13 <= length (block t).
Proof.
  intros Hpos Hfit H2 t (k & Hk)%list_elem_of_lookup_1.
  destruct (tasks_blocks hw range Hpos Hfit)
    as (n & size & Hn & Hsize & Hlen & H1 & H25 & _ & Hdiv & Hcat & Hslot
        & Hmid & Hlast).
  rewrite Hlen in *.
  assert (13 <= size) as H13 by nia.
  pose proof (lookup_lt_Some _ _ _ Hk) as Hlt. rewrite Hlen in Hlt.
  destruct (decide (S k < n)) as [Hin|Hout].
  - by rewrite (Hmid k t Hk Hin).
  - assert (k = n - 1) as -> by lia. rewrite (Hlast t Hk). nia.
Qed.

Lemma tasks_slots_NoDup (hw : nat) (range : list T) :
  0 < length range -> (Z.of_nat (length range) + 24 < 2 ^ 64)%Z ->
  NoDup (slot <$> tasks hw range).
Proof.
  intros Hpos Hfit.
  destruct (tasks_blocks hw range Hpos Hfit)
    as (n & size & _ & _ & _ & _ & _ & _ & _ & _ & Hslot & _).
  apply NoDup_alt. intros i j s Hi Hj.
  apply list_lookup_fmap_Some in Hi as (ti & -> & Hi).
  apply list_lookup_fmap_Some in Hj as (tj & Heq & Hj).
  rewrite (Hslot i ti Hi), (Hslot j tj Hj) in Heq. done.
Qed.

(** What the threads leave in results when each has run once. *)
Lemma results_after (hw : nat) (range : list T) :
  0 < length range -> (Z.of_nat (length range) + 24 < 2 ^ 64)%Z ->
  foldl (run plus)
    (replicate
       (Z.to_nat (num_threads (Z.of_nat hw) (Z.of_nat (length range)))) T0)
    (tasks hw range)
  = (fun t => accumulate_block plus (block t) T0) <$> tasks hw range.
Proof.
  intros Hpos Hfit.
  destruct (tasks_blocks hw range Hpos Hfit)
    as (n & size & Hn & _ & Hlen & _ & _ & _ & _ & _ & Hslot & _).
  rewrite <- Hn, Nat2Z.id, <- Hlen.
  rewrite <- (zip_with_replicate
                (fun r t => accumulate_block plus (block t) r) T0).
  apply (run_in_order (tasks hw range) []).
  - intros k t Hk. by rewrite (Hslot k t Hk).
  - by rewrite length_replicate.
Qed.

(** X10: the result does not depend on the order in which the threads and
    the caller come to run their blocks before the joins have returned: each
    writes an element of results of its own. *)
Theorem any_order (order : list (@task T)) (hw : nat) (range : list T) (init : T) :
  (Z.of_nat (length range) + 24 < 2 ^ 64)%Z ->
  order ≡ₚ tasks hw range ->
  parallel_accumulate_in plus T0 order hw range init
  = parallel_accumulate plus T0 hw range init.
Proof.
  intros Hfit Hperm. unfold parallel_accumulate, parallel_accumulate_in.
  cbv zeta. rewrite (ulong_small (Z.of_nat (length range))) by lia.
  case_decide as Hz; [done|]. f_equal.
  apply run_any_order; [done|].
  rewrite Hperm. apply tasks_slots_NoDup; [lia|done].
Qed.

(** X11: when [operator+] is associative and [T()] is neutral on the right,
    parallel_accumulate returns what std::accumulate returns on the whole
    range, for every number of hardware threads and every order in which the
    blocks are summed; on an empty range it returns init. *)
Theorem parallel_accumulate_correct (order : list (@task T)) (hw : nat)
    (range : list T) (init : T) :
  (forall x y z, plus x (plus y z) = plus (plus x y) z) ->
  (forall x, plus x T0 = x) ->
  (Z.of_nat (length range) + 24 < 2 ^ 64)%Z ->
  order ≡ₚ tasks hw range ->
  parallel_accumulate_in plus T0 order hw range init
  = accumulate plus range init.
Proof.
  intros Hassoc Hid Hfit Hperm. unfold parallel_accumulate_in.
  cbv zeta. rewrite (ulong_small (Z.of_nat (length range))) by lia.
  case_decide as Hz.
  - destruct range; [done|]. simpl in Hz. lia.
  - assert (0 < length range) as Hpos by lia.
    rewrite (run_any_order order (tasks hw range))
      by (try done; rewrite Hperm; by apply tasks_slots_NoDup).
    rewrite results_after by done.
    rewrite accumulate_blocks by done.
    destruct (tasks_blocks hw range Hpos Hfit)
      as (n & size & _ & _ & _ & _ & _ & _ & _ & Hcat & _).
    by rewrite Hcat.
Qed.

End parallel_accumulate_facts.

(** Without associativity the two differ: with subtraction, whose right
    neutral element is 0, twenty-six ones on two threads give 26 where
    std::accumulate gives -26. *)
Example parallel_accumulate_needs_assoc :
  parallel_accumulate Z.sub 0%Z 2 (replicate 26 1%Z) 0%Z = 26%Z
  /\ accumulate Z.sub (replicate 26 1%Z) 0%Z = (-26)%Z.
Proof. split; by vm_compute. Qed.

(** ** Functions that start a thread on a local variable *)

Arguments iterations : simpl never.

Lemma alloc_cell_then {A} (v : Z) (k : loc -> M A) w :
  (l ← alloc_cell v; k l) w = k (length (mem w)) (set_mem (mem w ++ [v]) w).
Proof. done. Qed.

Lemma start_then {A} f args (k : addr -> M A) w env m :
  std_thread.bind_args args (mem w) = (env, m) ->
  (v ← std_thread.ctor f args; t ← alloc v; k t) w
  = k (length (objs w)) (started_world f env m w).
Proof.
  intros H. unfold mbind, M_bind, std_thread.ctor. by rewrite H.
Qed.

Lemma start_scoped_then {A} f args (k : addr -> M A) w env m :
  std_thread.bind_args args (mem w) = (env, m) ->
  (v ← std_thread.ctor f args; t ← scoped_thread.ctor v; k t) w
  = k (length (objs w)) (started_world f env m w).
Proof.
  intros H. unfold mbind, M_bind, std_thread.ctor. rewrite H.
  unfold scoped_thread.ctor, new_obj, std_thread.joinable.
  by rewrite get_alloc_new.
Qed.

Lemma started_world_set_mem f env m m' w :
  started_world f env m (set_mem m' w) = started_world f env m w.
Proof. done. Qed.

Lemma consistent_set_mem m w : consistent w -> consistent (set_mem m w).
Proof. done. Qed.

Lemma consistent_started f env m w :
  consistent w -> consistent (started_world f env m w).
Proof.
  intros Hc.
  apply (consistent_alloc _
           (set_workers (workers w ++ [Worker f env false]) (set_mem m w))).
  by apply consistent_spawn.
Qed.

Lemma get_started f env m w :
  get (length (objs w)) (started_world f env m w) = Some (length (workers w)).
Proof. unfold get. simpl. by rewrite list_lookup_total_middle. Qed.

Lemma worker_started f env m w :
  workers (started_world f env m w) !! length (workers w)
  = Some (Worker f env false).
Proof. simpl. by rewrite list_lookup_middle. Qed.

Lemma std_join_joined this t w :
  get this w = Some t -> std_thread.join this w = Ok tt (joined this w).
Proof.
  intros H. unfold std_thread.join, joined. by rewrite H.
Qed.

Lemma std_dtor_empty this w :
  get this w = None -> std_thread.dtor this w = Ok tt w.
Proof.
  intros H. unfold std_thread.dtor, std_thread.joinable. by rewrite H.
Qed.

Lemma std_dtor_owned this t w :
  get this w = Some t -> std_thread.dtor this w = Terminate.
Proof.
  intros H. unfold std_thread.dtor, std_thread.joinable. by rewrite H.
Qed.

(** A callable that applies [g] to its parameter [n] times. *)
Lemma run_code_replicate (g : Z -> Z) (n : nat) (l : loc) (m : list Z) :
  l < length m ->
  run_code [l] (replicate n (Instr 0 (fun vs => g (vs !!! 0)))) m
  = <[l := Nat.iter n g (m !!! l)]> m.
Proof.
  intros Hl. revert m Hl. induction n as [|n IH]; intros m Hl.
  - simpl. symmetry. apply list_insert_id. by apply list_lookup_lookup_total_lt.
  - cbn [replicate]. unfold run_code in *. cbn [foldl].
    assert (exec_instr [l] (Instr 0 (fun vs => g (vs !!! 0))) m
            = <[l := g (m !!! l)]> m) as -> by done.
    rewrite IH by by rewrite length_insert.
    rewrite list_insert_insert_eq, list_lookup_total_insert_eq by done.
    by rewrite Nat.iter_succ_r.
Qed.

Lemma mem_joined_func g v w :
  mem (joined (length (objs w))
         (started_world (func g) [length (mem w)] (mem w ++ [v]) w))
  = mem w ++ [Nat.iter iterations g v].
Proof.
  unfold joined. rewrite get_started. cbn [mem add_event set_obj set_objs].
  unfold finish. rewrite worker_started.
  cbn [mem set_workers set_mem w_env w_code started_world].
  unfold func. rewrite run_code_replicate by (rewrite length_app; simpl; lia).
  rewrite list_lookup_total_middle by done.
  rewrite <- (Nat.add_0_r (length (mem w))) at 1.
  by rewrite insert_app_r.
Qed.

(** The world a function is left in when it has joined the worker it
    started on its local variable. *)
Lemma func_joined g v w :
  consistent w ->
  func_has_run g v w
    (joined (length (objs w))
       (started_world (func g) [length (mem w)] (mem w ++ [v]) w)).
Proof.
  intros Hc.
  pose proof (consistent_started (func g) [length (mem w)] (mem w ++ [v]) w Hc)
    as Hc1.
  pose proof (get_started (func g) [length (mem w)] (mem w ++ [v]) w) as Hg.
  unfold func_has_run. split_and!.
  - by eapply (completed_joined None).
  - apply get_joined_same.
  - rewrite resolutions_joined, Hg, holds_same.
    destruct (owned_unresolved _ _ _ _ Hc1 Hg) as [_ ->]. done.
  - apply mem_joined_func.
  - by apply consistent_joined.
Qed.

(** X2: f of lines 89-106 joins its thread when the call in the current
    thread returns and when it throws something derived from std::exception:
    on both paths the worker has made its million calls on some_local_state
    when f is left, and what leaves f on the second is the std::exception
    that [throw e] makes, not the exception that was caught.  An exception of
    any other type passes the handler by, and the destructor of the thread,
    still joinable, terminates the process. *)
Theorem f_try_catch_joins (do_something : Z -> Z) (thrown : option exn)
    (w : world) :
  consistent w ->
  match thrown with
  | None =>
      exists w', f_try_catch do_something thrown w = returned w'
                 /\ func_has_run do_something 0 w w'
  | Some e =>
      if std_exception e then
        exists w', f_try_catch do_something thrown w = thrown_std_exception w'
                   /\ func_has_run do_something 0 w w'
      else f_try_catch do_something thrown w = terminated
  end.
Proof.
  intros Hc. unfold f_try_catch. rewrite alloc_cell_then.
  rewrite (start_then _ _ _ _ [length (mem w)] (mem w ++ [0%Z])) by done.
  cbn [objs set_mem]. rewrite started_world_set_mem.
  set (w1 := started_world _ _ _ _).
  pose proof (get_started (func do_something) [length (mem w)]
                (mem w ++ [0%Z]) w) as Hg. fold w1 in Hg.
  pose proof (func_joined do_something 0 w Hc) as Hrun. fold w1 in Hrun.
  pose proof (get_joined_same (length (objs w)) w1) as Hj.
  unfold finally, try_catch, call, mbind, M_bind, mret, M_ret, throw.
  destruct thrown as [e|].
  - destruct (std_exception e); cbv beta iota.
    + rewrite (std_join_joined _ _ _ Hg). cbv beta iota.
      rewrite (std_dtor_empty _ _ Hj). simpl. eauto.
    + by rewrite (std_dtor_owned _ _ _ Hg).
  - cbv beta iota.
    rewrite (std_join_joined _ _ _ Hg). cbv beta iota.
    rewrite (std_dtor_empty _ _ Hj). simpl. eauto.
Qed.

(** The first [k] steps of a worker that runs [func]. *)
Lemma sched_func_steps (g : Z -> Z) (t : tid) (l : loc) (d : bool) (w : world)
    (k : nat) :
  workers w !! t = Some (Worker (func g) [l] d) ->
  l < length (mem w) -> k <= iterations ->
  mem (Nat.iter k (sched t) w) = <[l := Nat.iter k g (mem w !!! l)]> (mem w)
  /\ workers (Nat.iter k (sched t) w) !! t
     = Some (Worker (replicate (iterations - k)
                       (Instr 0 (fun vs => g (vs !!! 0)))) [l] d).
Proof.
  intros Hwk Hl. induction k as [|k IH]; intros Hk.
  - change (Nat.iter 0 (sched t) w) with w.
    change (Nat.iter 0 g (mem w !!! l)) with (mem w !!! l).
    rewrite Nat.sub_0_r. split; [|done].
    symmetry. apply list_insert_id. by apply list_lookup_lookup_total_lt.
  - destruct IH as [Hmem Hwk']; [lia|].
    rewrite !Nat.iter_succ. set (wk := Nat.iter k (sched t) w) in *.
    assert (iterations - k = S (iterations - S k)) as Hs by lia.
    rewrite Hs in Hwk'. cbn [replicate] in Hwk'.
    unfold sched. rewrite Hwk'. cbn [w_code w_env w_detached].
    cbn [mem workers set_workers set_mem]. split.
    + assert (exec_instr [l] (Instr 0 (fun vs => g (vs !!! 0))) (mem wk)
              = <[l := g (mem wk !!! l)]> (mem wk)) as -> by done.
      rewrite Hmem, list_insert_insert_eq.
      by rewrite list_lookup_total_insert_eq.
    + apply list_lookup_insert_eq. by eapply lookup_lt_Some.
Qed.

(** Any number of steps: the worker stops at the last of its calls. *)
Lemma sched_func_steps_any (g : Z -> Z) (t : tid) (l : loc) (d : bool)
    (w : world) (k : nat) :
  workers w !! t = Some (Worker (func g) [l] d) ->
  l < length (mem w) ->
  length (mem (Nat.iter k (sched t) w)) = length (mem w)
  /\ (forall x, x <> l -> mem (Nat.iter k (sched t) w) !! x = mem w !! x)
  /\ workers (Nat.iter k (sched t) w) !! t
     = Some (Worker (replicate (iterations - k)
                       (Instr 0 (fun vs => g (vs !!! 0)))) [l] d).
Proof.
  intros Hwk Hl.
  assert (forall j, j <= iterations ->
            length (mem (Nat.iter j (sched t) w)) = length (mem w)
            /\ (forall x, x <> l ->
                  mem (Nat.iter j (sched t) w) !! x = mem w !! x)
            /\ workers (Nat.iter j (sched t) w) !! t
               = Some (Worker (replicate (iterations - j)
                                 (Instr 0 (fun vs => g (vs !!! 0)))) [l] d))
    as Hle.
  { intros j Hj.
    destruct (sched_func_steps g t l d w j Hwk Hl Hj) as [Hmem Hwk'].
    rewrite Hmem. split_and!; [by rewrite length_insert| |done].
    intros x Hx. by apply list_lookup_insert_ne. }
  destruct (decide (k <= iterations)) as [Hk|Hk]; [by apply Hle|].
  assert (k = (k - iterations) + iterations) as -> by lia.
  rewrite Nat.iter_add.
  destruct (Hle iterations) as (Hlen & Hframe & Hwk'); [done|].
  rewrite Nat.sub_diag in Hwk'. cbn [replicate] in Hwk'.
  rewrite steps_completed by (eexists; split; [exact Hwk'|done]).
  split_and!; [done|done|].
  rewrite Hwk'. by replace (iterations - (k - iterations + iterations)) with 0
    by lia.
Qed.

Lemma log_steps t k w : log (Nat.iter k (sched t) w) = log w.
Proof.
  induction k as [|k IH]; [done|]. by rewrite Nat.iter_succ, log_sched.
Qed.

Lemma consistent_steps v t k w :
  consistent_with v w -> consistent_with v (Nat.iter k (sched t) w).
Proof.
  intros Hc. induction k as [|k IH]; [done|].
  rewrite Nat.iter_succ. by apply consistent_sched.
Qed.

Lemma start_thread_then {A} f args (k : thread -> addr -> M A) w env m :
  std_thread.bind_args args (mem w) = (env, m) ->
  (v ← std_thread.ctor f args; t ← alloc v; k v t) w
  = k (Some (length (workers w))) (length (objs w)) (started_world f env m w).
Proof.
  intros H. unfold mbind, M_bind, std_thread.ctor. by rewrite H.
Qed.

(** X3: oops of lines 52-58 returns, whatever number of steps its worker has
    been given by then: the memory is the caller's again, some_local_state is
    gone, and the worker is detached, so that no thread object owns it or can
    join it.  Unless it had been given all of its million steps, the worker
    has the rest of its calls to make, and the next of them accesses the cell
    that was some_local_state, which lies beyond the end of the memory: the
    undefined behaviour of lines 47-48.  Had it been given them all, it has
    completed. *)
Theorem oops_leaves_worker_dangling (do_something : Z -> Z) (steps : nat)
    (w : world) :
  consistent w ->
  exists w',
    oops do_something steps w = Ok tt w'
    /\ consistent w'
    /\ mem w' = mem w
    /\ (forall a, get a w' <> Some (length (workers w)))
    /\ resolutions (length (workers w)) w' = 1
    /\ remaining (length (workers w)) w' = iterations - steps
    /\ (steps < iterations ->
          ~ completed (length (workers w)) w'
          /\ next_accesses (length (workers w)) w' = [length (mem w')]
          /\ dangling (length (workers w)) w')
    /\ (iterations <= steps -> completed (length (workers w)) w').
Proof.
  intros Hc. unfold oops. rewrite alloc_cell_then. unfold finally at 1.
  rewrite (start_thread_then _ _ _ _ [length (mem w)] (mem w ++ [0%Z]))
    by done.
  cbn [objs set_mem]. rewrite started_world_set_mem.
  set (w1 := started_world _ _ _ _).
  pose proof (get_started (func do_something) [length (mem w)]
                (mem w ++ [0%Z]) w) as Hg. fold w1 in Hg.
  pose proof (consistent_started (func do_something) [length (mem w)]
                (mem w ++ [0%Z]) w Hc) as Hc1. fold w1 in Hc1.
  pose proof (worker_started (func do_something) [length (mem w)]
                (mem w ++ [0%Z]) w) as Hwk. fold w1 in Hwk.
  pose proof (get_Some_valid _ _ _ Hg) as Ha.
  set (w2 := add_event (ev_detach (length (workers w)))
               (set_obj (length (objs w)) None
                  (std_thread.hand_over (length (workers w)) w1))).
  assert (consistent w2) as Hc2 by by apply consistent_detach.
  assert (get (length (objs w)) w2 = None) as Hg2.
  { unfold w2. rewrite get_add_event. by apply get_set_obj_eq. }
  assert (workers w2 !! length (workers w)
          = Some (Worker (func do_something) [length (mem w)] true)) as Hwk2.
  { unfold w2. cbn [workers add_event set_obj set_objs std_thread.hand_over
                      set_workers].
    by rewrite list_lookup_alter_eq, Hwk. }
  assert (resolutions (length (workers w)) w2 = 1) as Hr2.
  { destruct (owned_unresolved _ _ _ _ Hc1 Hg) as [_ Hr].
    unfold w2, resolutions in *. cbn [log add_event set_obj set_objs
      std_thread.hand_over set_workers sum_list_with resolves] in *.
    rewrite decide_True by done. lia. }
  assert (length (mem w) < length (mem w2)) as Hl2.
  { change (mem w2) with (mem w ++ [0%Z]). rewrite length_app. simpl. lia. }
  set (w3 := Nat.iter steps (sched (length (workers w))) w2).
  destruct (sched_func_steps_any do_something _ _ _ _ steps Hwk2 Hl2)
    as (Hlen & Hframe & Hwk3). fold w3 in Hlen, Hframe, Hwk3.
  assert (consistent w3) as Hc3 by by apply consistent_steps.
  assert (get (length (objs w)) w3 = None) as Hg3.
  { unfold get, w3. rewrite objs_steps. exact Hg2. }
  assert (take (length (mem w)) (mem w3) = mem w) as Hmem.
  { apply list_eq. intros x.
    destruct (decide (x < length (mem w))) as [Hx|Hx].
    - rewrite lookup_take_lt by done. rewrite Hframe by lia.
      change (mem w2) with (mem w ++ [0%Z]). by apply lookup_app_l.
    - rewrite lookup_take_ge by lia. symmetry. apply lookup_ge_None. lia. }
  set (w4 := set_mem (take (length (mem w)) (mem w3)) w3).
  assert (resolutions (length (workers w)) w4 = 1) as Hr4.
  { unfold resolutions, w4, w3. cbn [log set_mem]. rewrite log_steps.
    exact Hr2. }
  assert (consistent w4) as Hc4 by by apply consistent_set_mem.
  assert (remaining (length (workers w)) w4 = iterations - steps) as Hrem.
  { unfold remaining. change (workers w4) with (workers w3).
    rewrite Hwk3. cbn [w_code]. apply length_replicate. }
  exists w4. split_and!.
  - unfold finally, mbind, M_bind, mret, M_ret.
    change (std_thread.detach (length (objs w)) w1)
      with (joining_thread.detach (length (objs w)) w1).
    rewrite (detach_owned _ _ _ Hg). fold w2.
    unfold run_for. cbv beta iota.
    change (workers (set_mem (mem w ++ [0%Z]) w)) with (workers w).
    fold w3. by rewrite (std_dtor_empty _ _ Hg3).
  - done.
  - done.
  - intros a. apply resolved_unowned; [done|lia].
  - done.
  - done.
  - intros Hs.
    assert (iterations - steps = S (iterations - S steps)) as Hn by lia.
    rewrite Hn in Hwk3. cbn [replicate] in Hwk3.
    assert (next_accesses (length (workers w)) w4 = [length (mem w4)]) as Hnext.
    { unfold next_accesses. change (workers w4) with (workers w3).
      rewrite Hwk3. cbn [w_code w_env]. change (mem w4) with
        (take (length (mem w)) (mem w3)). by rewrite Hmem. }
    split_and!.
    + intros (wk & Hwk' & Hcode). unfold remaining in Hrem.
      rewrite Hwk', Hcode in Hrem. simpl in Hrem. lia.
    + done.
    + exists (length (mem w4)). rewrite Hnext. split; [apply list_elem_of_singleton; done|lia].
  - intros Hs. eexists. split; [exact Hwk3|].
    cbn [w_code]. by replace (iterations - steps) with 0 by lia.
Qed.

(** X4: an object of scoped_thread can always be destroyed.  Whatever thread
    the constructor accepts is joinable, nothing else can be done to the
    object in between, and so the unguarded join of the destructor returns:
    the worker has completed, the object owns nothing and the process goes
    on. *)
Theorem scoped_thread_always_joins (t_ : thread) (w : world) (this : addr)
    (w1 : world) :
  consistent_with t_ w ->
  scoped_thread.ctor t_ w = Ok this w1 ->
  exists t w2,
    t_ = Some t
    /\ scoped_thread.dtor this w1 = Ok tt w2
    /\ completed t w2
    /\ get this w2 = None
    /\ resolutions t w2 = 1
    /\ consistent w2.
Proof.
  intros Hc Hctor. unfold scoped_thread.ctor, new_obj, std_thread.joinable in Hctor.
  rewrite get_alloc_new in Hctor. destruct t_ as [t|]; [|done].
  simpl in Hctor. injection Hctor as <- <-.
  set (w1 := set_objs (objs w ++ [Some t]) w).
  assert (consistent w1) as Hc1 by by apply consistent_alloc.
  assert (get (length (objs w)) w1 = Some t) as Hg by apply get_alloc_new.
  pose proof (get_joined_same (length (objs w)) w1) as Hj.
  exists t, (joined (length (objs w)) w1). split_and!.
  - done.
  - unfold scoped_thread.dtor, mbind, M_bind, noexcept.
    rewrite (std_join_joined _ _ _ Hg). by apply std_dtor_empty.
  - by eapply (completed_joined None).
  - done.
  - rewrite resolutions_joined, Hg, holds_same.
    destruct (owned_unresolved _ _ _ _ Hc1 Hg) as [_ ->]. done.
  - by apply consistent_joined.
Qed.

(** X5: f of lines 291-296 leaves with its worker joined whether the call
    in the current thread returns or throws, whatever is thrown: the
    scoped_thread does on every exit what the handler of lines 99-103 does for
    one kind of exception only. *)
Theorem f_scoped_thread_joins (indeterminate : Z) (do_something : Z -> Z)
    (thrown : option exn) (w : world) :
  consistent w ->
  exists w',
    f_scoped_thread indeterminate do_something thrown w
    = match thrown with Some e => Throw e w' | None => Ok tt w' end
    /\ func_has_run do_something indeterminate w w'.
Proof.
  intros Hc. unfold f_scoped_thread. rewrite alloc_cell_then.
  rewrite (start_scoped_then _ _ _ _ [length (mem w)]
             (mem w ++ [indeterminate])) by done.
  cbn [objs set_mem]. rewrite started_world_set_mem.
  set (w1 := started_world _ _ _ _).
  pose proof (get_started (func do_something) [length (mem w)]
                (mem w ++ [indeterminate]) w) as Hg. fold w1 in Hg.
  pose proof (func_joined do_something indeterminate w Hc) as Hrun.
  fold w1 in Hrun.
  pose proof (get_joined_same (length (objs w)) w1) as Hj.
  exists (joined (length (objs w)) w1). split; [|done].
  unfold finally, call, scoped_thread.dtor, mbind, M_bind, mret, M_ret,
    throw, noexcept.
  destruct thrown as [e|]; cbv beta iota;
    by rewrite (std_join_joined _ _ _ Hg), (std_dtor_empty _ _ Hj).
Qed.

(** ** Transfers between std::thread objects *)

Lemma move_from_then {A} (a : addr) (k : thread -> M A) w :
  (v ← std_thread.move_from a; k v) w = k (get a w) (set_obj a None w).
Proof. done. Qed.

Lemma alloc_then {A} (v : thread) (k : addr -> M A) w :
  (t ← alloc v; k t) w = k (length (objs w)) (set_objs (objs w ++ [v]) w).
Proof. done. Qed.

Lemma ctor_then {A} f (k : thread -> M A) w :
  (v ← std_thread.ctor f []; k v) w
  = k (Some (length (workers w)))
      (set_workers (workers w ++ [Worker f [] false]) w).
Proof. by destruct w. Qed.

Lemma assign_then {A} this v (k : M A) w :
  get this w = None ->
  (std_thread.assign this v ;; k) w = k (set_obj this v w).
Proof.
  intros H. unfold mbind, M_bind, std_thread.assign, std_thread.joinable.
  by rewrite H.
Qed.

Lemma move_assign_then {A} this other (k : M A) w :
  get this w = None ->
  (std_thread.move_assign this other ;; k) w
  = k (set_obj this (get other w) (set_obj other None w)).
Proof.
  intros H. unfold mbind, M_bind, std_thread.move_assign, std_thread.joinable.
  by rewrite H.
Qed.

Lemma move_assign_terminates {A} this other (k : M A) w t :
  get this w = Some t -> (std_thread.move_assign this other ;; k) w = Terminate.
Proof.
  intros H. unfold mbind, M_bind, std_thread.move_assign, std_thread.joinable.
  by rewrite H.
Qed.

(** X6: the transfers of lines 237-241 go as the comments of the source say:
    thread1 ends up with the worker that runs some_other_func, thread2 empty,
    thread3 with the worker that runs some_func, and nothing has been joined
    or detached.  The assignment of line 242 then finds thread1 joinable and
    terminates the process. *)
Theorem transfer_of_ownership_as_commented (some_func some_other_func : callable)
    (w : world) :
  (exists w',
     transfer_of_ownership some_func some_other_func false w
     = Ok (length (objs w), S (length (objs w)), S (S (length (objs w)))) w'
     /\ get (length (objs w)) w' = Some (S (length (workers w)))
     /\ get (S (length (objs w))) w' = None
     /\ get (S (S (length (objs w)))) w' = Some (length (workers w))
     /\ (exists wk, workers w' !! length (workers w) = Some wk
                    /\ w_code wk = some_func)
     /\ (exists wk, workers w' !! S (length (workers w)) = Some wk
                    /\ w_code wk = some_other_func)
     /\ log w' = log w)
  /\ transfer_of_ownership some_func some_other_func true w = Terminate.
Proof.
  set (a := length (objs w)). set (t0 := length (workers w)).
  set (w1 := set_objs (objs w ++ [Some t0])
               (set_workers (workers w ++ [Worker some_func [] false]) w)).
  set (w2 := set_obj a None w1).
  set (w3 := set_objs (objs w2 ++ [Some t0]) w2).
  set (w4 := set_workers (workers w3 ++ [Worker some_other_func [] false]) w3).
  set (w5 := set_obj a (Some (S t0)) w4).
  set (w6 := set_objs (objs w5 ++ [None]) w5).
  set (w7 := set_obj (S (S a)) (Some t0) (set_obj (S a) None w6)).
  assert (length (objs w1) = S a) as Hl1
    by (unfold w1; simpl; rewrite length_app; simpl; lia).
  assert (get a w1 = Some t0) as Hg1
    by exact (get_alloc_new (Some t0)
                (set_workers (workers w ++ [Worker some_func [] false]) w)).
  assert (length (objs w2) = S a) as Hl2
    by (unfold w2; by rewrite length_objs_set_obj).
  assert (get a w2 = None) as Hg2 by (apply get_set_obj_eq; lia).
  assert (length (objs w3) = S (S a)) as Hl3.
  { unfold w3. cbn [objs set_objs]. rewrite length_app, Hl2. simpl. lia. }
  assert (get a w3 = None) as Hg3.
  { unfold w3. rewrite get_alloc_old by lia. done. }
  assert (get (S a) w3 = Some t0) as Hg3'.
  { unfold w3. rewrite <- Hl2. apply get_alloc_new. }
  assert (length (workers w3) = S t0) as Hw3.
  { change (workers w3) with (workers w ++ [Worker some_func [] false]).
    rewrite length_app. simpl. lia. }
  assert (length (objs w5) = S (S a)) as Hl5
    by (unfold w5; by rewrite length_objs_set_obj).
  assert (get a w5 = Some (S t0)) as Hg5
    by (apply get_set_obj_eq; change (objs w4) with (objs w3); lia).
  assert (get (S a) w5 = Some t0) as Hg5'.
  { unfold w5. rewrite get_set_obj_ne by lia. done. }
  assert (length (objs w6) = S (S (S a))) as Hl6.
  { unfold w6. cbn [objs set_objs]. rewrite length_app, Hl5. simpl. lia. }
  assert (get (S (S a)) w6 = None) as Hg6.
  { unfold w6. rewrite <- Hl5. apply get_alloc_new. }
  assert (get (S a) w6 = Some t0) as Hg6'.
  { unfold w6. rewrite get_alloc_old by lia. done. }
  assert (get a w6 = Some (S t0)) as Hg6''.
  { unfold w6. rewrite get_alloc_old by lia. done. }
  assert (get a w7 = Some (S t0)) as Hg7.
  { unfold w7. rewrite !get_set_obj_ne by lia. done. }
  assert (forall last,
            transfer_of_ownership some_func some_other_func last w
            = (when last (std_thread.move_assign a (S (S a))) ;;
               mret (a, S a, S (S a))) w7) as Hrun.
  { intros last. unfold transfer_of_ownership.
    rewrite ctor_then, alloc_then.
    change (set_objs _ (set_workers _ w)) with w1.
    change (length (objs (set_workers _ w))) with a.
    rewrite move_from_then, Hg1. fold w2.
    rewrite alloc_then, Hl2. fold w3.
    rewrite ctor_then, Hw3. fold w4.
    rewrite assign_then by done. fold w5.
    rewrite alloc_then, Hl5. fold w6.
    rewrite move_assign_then by done. rewrite Hg6'. done. }
  split.
  - exists w7. rewrite Hrun. split_and!; try done.
    + unfold w7. rewrite get_set_obj_ne by lia. apply get_set_obj_eq. lia.
    + unfold w7. apply get_set_obj_eq. rewrite length_objs_set_obj. lia.
    + exists (Worker some_func [] false). split; [|done].
      unfold w7, w6, w5, w4, w3, w2, w1. simpl.
      rewrite lookup_app_l by (rewrite length_app; simpl; lia).
      by rewrite list_lookup_middle.
    + exists (Worker some_other_func [] false). split; [|done].
      change (workers w7) with (workers w3 ++ [Worker some_other_func [] false]).
      by rewrite list_lookup_middle.
  - rewrite Hrun. unfold when.
    by rewrite (move_assign_terminates _ _ _ _ _ Hg7).
Qed.

(** ** Workers on copies and on references *)

Lemma run_code_frame env code m l :
  l ∉ env -> run_code env code m !! l = m !! l.
Proof.
  intros Hl. revert m. unfold run_code.
  induction code as [|i code IH]; intros m; [done|].
  simpl. by rewrite IH, exec_instr_frame.
Qed.

Lemma run_code_length env code m : length (run_code env code m) = length m.
Proof.
  revert m. unfold run_code. induction code as [|i code IH]; intros m; [done|].
  simpl. rewrite IH. unfold exec_instr.
  destruct (env !! target i); [by rewrite length_insert|done].
Qed.

Lemma mem_joined_started f env m w :
  mem (joined (length (objs w)) (started_world f env m w)) = run_code env f m.
Proof.
  unfold joined. rewrite get_started. cbn [mem add_event set_obj set_objs].
  unfold finish. by rewrite worker_started.
Qed.

(** What joining the thread of a function's own worker gives. *)
Lemma started_joined f env m w :
  consistent w ->
  completed (length (workers w))
    (joined (length (objs w)) (started_world f env m w))
  /\ get (length (objs w))
       (joined (length (objs w)) (started_world f env m w)) = None
  /\ resolutions (length (workers w))
       (joined (length (objs w)) (started_world f env m w)) = 1
  /\ consistent (joined (length (objs w)) (started_world f env m w)).
Proof.
  intros Hc.
  pose proof (consistent_started f env m w Hc) as Hc1.
  pose proof (get_started f env m w) as Hg.
  split_and!.
  - by eapply (completed_joined None).
  - apply get_joined_same.
  - rewrite resolutions_joined, Hg, holds_same.
    destruct (owned_unresolved _ _ _ _ Hc1 Hg) as [_ ->]. done.
  - by apply consistent_joined.
Qed.

(** X12: oops_again hands process_widget_data the data as
    update_data_for_widget left it: the worker was given the caller's [data]
    itself and a copy of [w], it has completed and been joined when the data
    is read, and neither [w] nor any memory the caller had before is
    changed. *)
Theorem oops_again_sees_update (update_data_for_widget : callable)
    (w_id initial_data : Z) (w : world) :
  consistent w ->
  exists result w',
    oops_again update_data_for_widget w_id initial_data w = Ok result w'
    /\ mem w'
       = run_code [S (S (length (mem w))); S (length (mem w))]
           update_data_for_widget (mem w ++ [w_id; initial_data; w_id])
    /\ mem w' !! S (length (mem w)) = Some result
    /\ mem w' !! length (mem w) = Some w_id
    /\ (forall l, l < length (mem w) -> mem w' !! l = mem w !! l)
    /\ completed (length (workers w)) w'
    /\ get (length (objs w)) w' = None
    /\ resolutions (length (workers w)) w' = 1
    /\ consistent w'.
Proof.
  intros Hc. unfold oops_again. rewrite !alloc_cell_then.
  set (l0 := length (mem w)).
  set (m2 := (mem w ++ [w_id]) ++ [initial_data]).
  assert (length m2 = S (S l0)) as Hm2
    by (unfold m2; rewrite !length_app; simpl; lia).
  assert (m2 !!! l0 = w_id) as Hw.
  { unfold m2. rewrite lookup_total_app_l by (rewrite length_app; simpl; lia).
    by rewrite list_lookup_total_middle. }
  rewrite (start_then _ _ _ _ [S (S l0); S l0] (m2 ++ [w_id])); cycle 1.
  { cbn [mem set_mem std_thread.bind_args std_thread.bind_arg].
    fold m2. rewrite Hm2, Hw, length_app. fold l0. simpl.
    by rewrite Nat.add_1_r. }
  cbn [objs set_mem]. rewrite !started_world_set_mem.
  set (w1 := started_world _ _ _ _).
  pose proof (get_started update_data_for_widget [S (S l0); S l0]
                (m2 ++ [w_id]) w) as Hg. fold w1 in Hg.
  pose proof (started_joined update_data_for_widget [S (S l0); S l0]
                (m2 ++ [w_id]) w Hc) as (Hdone & Hj & Hres & Hc').
  fold w1 in Hdone, Hj, Hres, Hc'.
  pose proof (mem_joined_started update_data_for_widget [S (S l0); S l0]
                (m2 ++ [w_id]) w) as Hmem. fold w1 in Hmem.
  assert (m2 ++ [w_id] = mem w ++ [w_id; initial_data; w_id]) as Hm3.
  { unfold m2. by rewrite <- !app_assoc. }
  rewrite Hm3 in Hmem.
  exists (mem (joined (length (objs w)) w1) !!! S l0),
         (joined (length (objs w)) w1).
  split_and!; try done.
  - unfold finally, call, query, mbind, M_bind, mret, M_ret. cbv beta iota.
    rewrite (std_join_joined _ _ _ Hg). cbv beta iota.
    rewrite (std_dtor_empty _ _ Hj). cbn [mem set_mem].
    by rewrite length_app, Nat.add_1_r.
  - apply list_lookup_lookup_total_lt.
    rewrite Hmem, run_code_length, length_app. simpl. lia.
  - rewrite Hmem, run_code_frame.
    + rewrite (list_lookup_middle (mem w) _ w_id l0); done.
    + intros Hin. apply elem_of_cons in Hin as [Hin|Hin]; [lia|].
      apply elem_of_cons in Hin as [Hin|Hin]; [lia|].
      by apply elem_of_nil in Hin.
  - intros l Hl. rewrite Hmem, run_code_frame.
    + by rewrite lookup_app_l.
    + intros Hin. apply elem_of_cons in Hin as [Hin|Hin]; [lia|].
      apply elem_of_cons in Hin as [Hin|Hin]; [lia|].
      by apply elem_of_nil in Hin.
Qed.

(** ** A vector of threads *)

Lemma owners_zero t w : (forall a, get a w <> Some t) -> owners t w = 0.
Proof.
  intros H. unfold owners.
  assert (forall v, v ∈ objs w -> v <> Some t) as Hall.
  { intros v (a & Ha)%list_elem_of_lookup_1 ->. apply (H a).
    by apply lookup_get. }
  induction (objs w) as [|v l IH]; [done|]. simpl.
  rewrite IH by (intros v' Hv'; apply Hall; by apply list_elem_of_further).
  destruct v as [t'|]; simpl; [|done].
  case_decide; [|done]. subst t'. exfalso.
  by apply (Hall (Some t)); [apply list_elem_of_here|].
Qed.

Lemma env_of_finish t t' w : env_of t (finish t' w) = env_of t w.
Proof.
  unfold env_of, finish.
  destruct (workers w !! t') as [wk'|] eqn:Ht'; [|done]. simpl.
  destruct (decide (t' = t)) as [->|Hne].
  - rewrite list_lookup_insert_eq by by eapply lookup_lt_Some.
    by rewrite Ht'.
  - by rewrite list_lookup_insert_ne.
Qed.

Lemma env_of_joined t a w : env_of t (joined a w) = env_of t w.
Proof.
  unfold joined. destruct (get a w) as [t'|]; [|done].
  apply (env_of_finish t t' w).
Qed.

Lemma mem_joined_frame a w l :
  (forall t, get a w = Some t -> l ∉ env_of t w) ->
  mem (joined a w) !! l = mem w !! l.
Proof.
  intros H. unfold joined. destruct (get a w) as [t|]; [|done].
  cbn [mem add_event set_obj set_objs].
  rewrite finish_sched. apply mem_iter_sched_frame. by apply H.
Qed.

Lemma mem_joined_all_frame hs w l :
  (forall a t, a ∈ hs -> get a w = Some t -> l ∉ env_of t w) ->
  mem (joined_all hs w) !! l = mem w !! l.
Proof.
  revert w. induction hs as [|a hs IH]; intros w H; [done|].
  simpl. rewrite IH.
  - apply mem_joined_frame. intros t. apply H, list_elem_of_here.
  - intros b t Hb Hg. rewrite env_of_joined.
    destruct (decide (a = b)) as [->|Hne].
    + by rewrite get_joined_same in Hg.
    + rewrite get_joined_other in Hg by done.
      apply (H b); [by apply list_elem_of_further|done].
Qed.

Lemma emplace_each_emplaced do_work indices w :
  consistent w ->
  emplace_each do_work indices w
  = Ok (seq (length (objs w)) (length indices)) (emplaced do_work indices w)
  /\ consistent (emplaced do_work indices w).
Proof.
  revert w. induction indices as [|i indices IH]; intros w Hc.
  - unfold emplaced. simpl. rewrite !app_nil_r. by destruct w.
  - cbn [emplace_each].
    rewrite (start_then _ _ _ _ [length (mem w)] (mem w ++ [Z.of_nat i]))
      by done.
    set (w1 := started_world _ _ _ _).
    assert (consistent w1) as Hc1 by by apply consistent_started.
    destruct (IH w1 Hc1) as [Hrun Hc2].
    assert (emplaced do_work indices w1 = emplaced do_work (i :: indices) w)
      as Heq.
    { unfold emplaced, w1. cbn [mem workers objs log started_world].
      rewrite !length_app. cbn [length fmap list_fmap seq].
      rewrite <- !app_assoc. cbn [app].
      rewrite Nat.add_0_r, !Nat.add_1_r.
      rewrite <- (fmap_S_seq 0), <- list_fmap_compose.
      do 3 f_equal. apply list_fmap_ext. intros _ j _. simpl.
      do 2 f_equal. lia. }
    rewrite <- Heq. split; [|done].
    unfold mbind, M_bind. rewrite Hrun. unfold mret, M_ret.
    cbn [length seq]. do 2 f_equal.
    unfold w1. cbn [objs started_world]. rewrite length_app. simpl.
    f_equal. lia.
Qed.

Lemma get_emplaced_new do_work indices w j :
  j < length indices ->
  get (length (objs w) + j) (emplaced do_work indices w)
  = Some (length (workers w) + j).
Proof.
  intros Hj. apply lookup_get. unfold emplaced. cbn [objs].
  rewrite lookup_app_r by lia.
  replace (length (objs w) + j - length (objs w)) with j by lia.
  rewrite list_lookup_fmap, lookup_seq_lt by done. done.
Qed.

Lemma get_emplaced_old do_work indices w b :
  b < length (objs w) -> get b (emplaced do_work indices w) = get b w.
Proof.
  intros Hb. unfold get, emplaced. cbn [objs]. by rewrite lookup_total_app_l.
Qed.

Lemma worker_emplaced do_work indices w j :
  j < length indices ->
  workers (emplaced do_work indices w) !! (length (workers w) + j)
  = Some (Worker do_work [length (mem w) + j] false).
Proof.
  intros Hj. unfold emplaced. cbn [workers].
  rewrite lookup_app_r by lia.
  replace (length (workers w) + j - length (workers w)) with j by lia.
  rewrite list_lookup_fmap, lookup_seq_lt by done. done.
Qed.

Lemma join_each_joined threads w :
  NoDup threads -> (forall a, a ∈ threads -> is_Some (get a w)) ->
  join_each threads w = Ok tt (joined_all threads w).
Proof.
  revert w. induction threads as [|a threads IH]; intros w Hnd Hall; [done|].
  apply NoDup_cons in Hnd as [Hn Hnd].
  destruct (Hall a (list_elem_of_here _ _)) as [t Ht].
  cbn [join_each joined_all foldl]. unfold mbind, M_bind.
  rewrite (std_join_joined _ _ _ Ht). apply IH; [done|].
  intros b Hb. rewrite get_joined_other by (intros ->; done).
  by apply Hall, list_elem_of_further.
Qed.

Lemma destroy_each_empty threads w :
  (forall a, a ∈ threads -> get a w = None) ->
  destroy_each threads w = Ok tt w.
Proof.
  induction threads as [|a threads IH]; intros Hall; [done|].
  cbn [destroy_each]. unfold mbind, M_bind.
  rewrite std_dtor_empty by apply Hall, list_elem_of_here.
  apply IH. intros b Hb. by apply Hall, list_elem_of_further.
Qed.

(** The two loops and the destruction of the vector, for any list of
    indices. *)
Lemma emplace_join_all (do_work : callable) (indices : list nat) (w : world) :
  consistent w ->
  exists w',
    (threads ← emplace_each do_work indices;
     finally (join_each threads) (destroy_each threads)) w = Ok tt w'
    /\ consistent w'
    /\ length (workers w') = length (workers w) + length indices
    /\ (forall k, k < length indices ->
          completed (length (workers w) + k) w'
          /\ resolutions (length (workers w) + k) w' = 1
          /\ get (length (objs w) + k) w' = None)
    /\ (forall l, l < length (mem w) -> mem w' !! l = mem w !! l)
    /\ (forall b, b < length (objs w) -> get b w' = get b w).
Proof.
  intros Hc.
  destruct (emplace_each_emplaced do_work indices w Hc) as [Hrun Hc1].
  set (n := length indices) in *.
  set (w1 := emplaced do_work indices w) in *.
  set (threads := seq (length (objs w)) n) in *.
  assert (forall a, a ∈ threads <->
            exists k, k < n /\ a = length (objs w) + k) as Hthreads.
  { intros a. unfold threads. rewrite elem_of_seq. split.
    - intros H. exists (a - length (objs w)). lia.
    - intros (k & Hk & ->). lia. }
  assert (forall k, k < n ->
            get (length (objs w) + k) w1 = Some (length (workers w) + k))
    as Hget.
  { intros k Hk. by apply get_emplaced_new. }
  assert (forall k, k < n ->
            env_of (length (workers w) + k) w1 = [length (mem w) + k]) as Henv.
  { intros k Hk. unfold env_of, w1. by rewrite worker_emplaced. }
  assert (forall b, b < length (objs w) -> get b w1 = get b w) as Hold1.
  { intros b Hb. by apply get_emplaced_old. }
  assert (length (objs w1) = length (objs w) + n) as Hlo1.
  { unfold w1, emplaced. cbn [objs].
    by rewrite length_app, length_fmap, length_seq. }
  assert (length (workers w1) = length (workers w) + n) as Hlw1.
  { unfold w1, emplaced. cbn [workers].
    by rewrite length_app, length_fmap, length_seq. }
  assert (forall l, l < length (mem w) -> mem w1 !! l = mem w !! l) as Hmem1.
  { intros l Hl. unfold w1, emplaced. cbn [mem]. by rewrite lookup_app_l. }
  assert (NoDup threads) as Hnd by apply NoDup_seq.
  clearbody w1 threads.
  destruct (joined_all_spec threads w1 Hc1)
    as (Hc2 & Hl2 & Hin & Hout & _ & Hdone).
  assert (join_each threads w1 = Ok tt (joined_all threads w1)) as Hjoin.
  { apply join_each_joined; [done|].
    intros a (k & Hk & ->)%Hthreads. rewrite Hget by done. eauto. }
  assert (forall hs w0, length (workers (joined_all hs w0))
                        = length (workers w0)) as Hlw.
  { induction hs as [|a hs IH]; intros w0; [done|].
    simpl. rewrite IH. unfold joined. destruct (get a w0); [|done].
    apply length_workers_finish. }
  exists (joined_all threads w1).
  split; [|split; [exact Hc2|split; [|split; [|split]]]].
  - unfold mbind, M_bind at 1. rewrite Hrun.
    unfold finally. rewrite Hjoin. unfold mbind, M_bind, mret, M_ret.
    by rewrite (destroy_each_empty _ _ Hin).
  - by rewrite Hlw.
  - intros k Hk.
    assert (length (objs w) + k ∈ threads) as Hk' by (apply Hthreads; eauto).
    split; [|split].
    + apply (Hdone (length (objs w) + k)); [done|by apply Hget].
    + assert (owners (length (workers w) + k) (joined_all threads w1) = 0)
        as Hz.
      { apply owners_zero. intros b Hb.
        destruct (decide (b ∈ threads)) as [Hbin|Hbout].
        - by rewrite (Hin b Hbin) in Hb.
        - rewrite (Hout b Hbout) in Hb.
          destruct (decide (b < length (objs w))) as [Hlt|Hge].
          + rewrite Hold1 in Hb by done.
            pose proof (owned_started _ _ _ _ Hc Hlt Hb). lia.
          + pose proof (get_Some_valid _ _ _ Hb) as Hv.
            apply Hbout, Hthreads. exists (b - length (objs w)). lia. }
      pose proof (Hc2 (length (workers w) + k)) as Hk2.
      unfold started in Hk2. rewrite Hlw, Hlw1 in Hk2.
      rewrite decide_True in Hk2 by lia. cbn [holds] in Hk2. lia.
    + by apply Hin.
  - intros l Hl. rewrite mem_joined_all_frame; [by apply Hmem1|].
    intros a t (k & Hk & ->)%Hthreads Hg.
    rewrite Hget in Hg by done. injection Hg as <-.
    rewrite Henv by done. intros Hin'%list_elem_of_singleton. lia.
  - intros b Hb. rewrite Hout; [by apply Hold1|].
    intros (k & _ & ->)%Hthreads. lia.
Qed.

(** X13: f of lines 365-373 starts twenty workers, the k-th on a copy of
    its own index k, and joins every one of them: when it returns all twenty
    have completed, each was joined exactly once, the threads in the vector own
    nothing, so that destroying the vector does not terminate the process, and
    no memory or thread object the caller had before has changed. *)
Theorem f_do_work_joins_all (do_work : callable) (w : world) :
  consistent w ->
  exists threads w1 w',
    emplace_each do_work (seq 0 20) w = Ok threads w1
    /\ f_do_work do_work w = Ok tt w'
    /\ consistent w'
    /\ length (workers w') = length (workers w) + 20
    /\ (forall k, k < 20 ->
          workers w1 !! (length (workers w) + k)
          = Some (Worker do_work [length (mem w) + k] false)
          /\ mem w1 !! (length (mem w) + k) = Some (Z.of_nat k)
          /\ threads !! k = Some (length (objs w) + k)
          /\ get (length (objs w) + k) w1 = Some (length (workers w) + k)
          /\ completed (length (workers w) + k) w'
          /\ resolutions (length (workers w) + k) w' = 1
          /\ get (length (objs w) + k) w' = None)
    /\ (forall l, l < length (mem w) -> mem w' !! l = mem w !! l)
    /\ (forall b, b < length (objs w) -> get b w' = get b w).
Proof.
  intros Hc.
  assert (length (seq 0 20) = 20) as H20 by apply length_seq.
  destruct (emplace_each_emplaced do_work (seq 0 20) w Hc) as [Hrun _].
  destruct (emplace_join_all do_work (seq 0 20) w Hc)
    as (w' & Hf & Hc' & Hlw & Hall & Hmem & Hold).
  rewrite H20 in Hlw, Hall, Hrun.
  exists (seq (length (objs w)) 20), (emplaced do_work (seq 0 20) w), w'.
  split; [exact Hrun|]. split; [exact Hf|]. split; [exact Hc'|].
  split; [exact Hlw|]. split; [|split; [exact Hmem|exact Hold]].
  intros k Hk. destruct (Hall k Hk) as (Hdone & Hres & Hempty).
  assert (k < length (seq 0 20)) as Hk20 by (rewrite H20; exact Hk).
  split; [by apply worker_emplaced|].
  split.
  { unfold emplaced. cbn [mem]. rewrite lookup_app_r by lia.
    replace (length (mem w) + k - length (mem w)) with k by lia.
    rewrite list_lookup_fmap, lookup_seq_lt by exact Hk. done. }
  split; [by rewrite lookup_seq_lt|].
  split; [by apply get_emplaced_new|].
  split; [exact Hdone|]. split; [exact Hres|exact Hempty].
Qed.

(** ** The properties above at chosen inputs *)

Lemma f2_joins_witness :
  consistent empty_world
  /\ exists w',
       f2 [incr 0] [temporary 5%Z] (Some (other_error 7)) empty_world
       = Throw (other_error 7) w'
       /\ completed (length (workers empty_world)) w'
       /\ get (length (objs empty_world)) w' = None
       /\ resolutions (length (workers empty_world)) w' = 1.
Proof.
  split; [exact empty_consistent|].
  exact (f2_joins [incr 0] [temporary 5%Z] (Some (other_error 7)) empty_world
           empty_consistent).
Defined.

Lemma f_try_catch_joins_witness :
  consistent demo_world
  /\ exists w',
       f_try_catch Z.succ (Some (logic_error "busy")) demo_world
       = thrown_std_exception w'
       /\ func_has_run Z.succ 0 demo_world w'.
Proof.
  split; [exact demo_consistent|].
  exact (f_try_catch_joins Z.succ (Some (logic_error "busy")) demo_world
           demo_consistent).
Defined.

Lemma oops_leaves_worker_dangling_witness :
  consistent demo_world
  /\ exists w',
       oops Z.succ 3 demo_world = Ok tt w'
       /\ consistent w'
       /\ mem w' = mem demo_world
       /\ (forall a, get a w' <> Some (length (workers demo_world)))
       /\ resolutions (length (workers demo_world)) w' = 1
       /\ remaining (length (workers demo_world)) w' = iterations - 3
       /\ (3 < iterations ->
             ~ completed (length (workers demo_world)) w'
             /\ next_accesses (length (workers demo_world)) w'
                = [length (mem w')]
             /\ dangling (length (workers demo_world)) w')
       /\ (iterations <= 3 -> completed (length (workers demo_world)) w').
Proof.
  split; [exact demo_consistent|].
  exact (oops_leaves_worker_dangling Z.succ 3 demo_world demo_consistent).
Defined.

Lemma in_flight_consistent : consistent_with (Some 0) in_flight_world.
Proof.
  intros t. unfold owners, resolutions, started. simpl.
  repeat case_decide; lia.
Qed.

Lemma scoped_thread_always_joins_witness :
  consistent_with (Some 0) in_flight_world
  /\ scoped_thread.ctor (Some 0) in_flight_world
     = Ok 0 (World [] [Worker [] [] false] [Some 0] [])
  /\ exists t w2,
       Some 0 = Some t
       /\ scoped_thread.dtor 0 (World [] [Worker [] [] false] [Some 0] [])
          = Ok tt w2
       /\ completed t w2
       /\ get 0 w2 = None
       /\ resolutions t w2 = 1
       /\ consistent w2.
Proof.
  split; [exact in_flight_consistent|]. split; [reflexivity|].
  exact (scoped_thread_always_joins (Some 0) in_flight_world 0 _
           in_flight_consistent eq_refl).
Defined.

Lemma f_scoped_thread_joins_witness :
  consistent demo_world
  /\ exists w',
       f_scoped_thread 3 Z.succ (Some (other_error 7)) demo_world
       = Throw (other_error 7) w'
       /\ func_has_run Z.succ 3 demo_world w'.
Proof.
  split; [exact demo_consistent|].
  exact (f_scoped_thread_joins 3 Z.succ (Some (other_error 7)) demo_world
           demo_consistent).
Defined.

Lemma twenty_six_fit :
  (Z.of_nat (length (replicate 26 1%Z)) + 24 < 2 ^ 64)%Z.
Proof. reflexivity. Qed.

Lemma twenty_six_positive : 0 < length (replicate 26 1%Z).
Proof. simpl. lia. Qed.

Lemma thread_count_bounds_witness :
  0 < length (replicate 26 1%Z)
  /\ (Z.of_nat (length (replicate 26 1%Z)) + 24 < 2 ^ 64)%Z
  /\ Z.of_nat (length (tasks 8 (replicate 26 1%Z)))
     = num_threads (Z.of_nat 8) (Z.of_nat (length (replicate 26 1%Z)))
  /\ 1 <= length (tasks 8 (replicate 26 1%Z))
  /\ length (tasks 8 (replicate 26 1%Z)) <= (if decide (8 = 0) then 2 else 8)
  /\ 25 * length (tasks 8 (replicate 26 1%Z))
     <= length (replicate 26 1%Z) + 24
  /\ (length (replicate 26 1%Z) <= 25 ->
      tasks 8 (replicate 26 1%Z) = [Task 0 (replicate 26 1%Z)]).
Proof.
  split; [exact twenty_six_positive|]. split; [exact twenty_six_fit|].
  exact (thread_count_bounds 8 (replicate 26 1%Z)
           twenty_six_positive twenty_six_fit).
Defined.

Lemma blocks_partition_witness :
  0 < length (replicate 26 1%Z)
  /\ (Z.of_nat (length (replicate 26 1%Z)) + 24 < 2 ^ 64)%Z
  /\ concat (block <$> tasks 8 (replicate 26 1%Z)) = replicate 26 1%Z.
Proof.
  split; [exact twenty_six_positive|]. split; [exact twenty_six_fit|].
  exact (proj1 (blocks_partition 8 (replicate 26 1%Z)
                  twenty_six_positive twenty_six_fit)).
Defined.

Lemma two_tasks : 2 <= length (tasks 8 (replicate 26 1%Z)).
Proof. vm_compute. lia. Qed.

(** Twenty-six elements: two blocks of thirteen. *)
Lemma blocks_at_least_13_witness :
  0 < length (replicate 26 1%Z)
  /\ (Z.of_nat (length (replicate 26 1%Z)) + 24 < 2 ^ 64)%Z
  /\ 2 <= length (tasks 8 (replicate 26 1%Z))
  /\ (length ∘ block) <$> tasks 8 (replicate 26 1%Z) = [13; 13]
  /\ forall t, t ∈ tasks 8 (replicate 26 1%Z) -> 13 <= length (block t).
Proof.
  split; [exact twenty_six_positive|]. split; [exact twenty_six_fit|].
  split; [exact two_tasks|]. split; [reflexivity|].
  exact (blocks_at_least_13 8 (replicate 26 1%Z)
           twenty_six_positive twenty_six_fit two_tasks).
Defined.

Lemma any_order_witness :
  (Z.of_nat (length (replicate 26 1%Z)) + 24 < 2 ^ 64)%Z
  /\ reverse (tasks 8 (replicate 26 1%Z)) ≡ₚ tasks 8 (replicate 26 1%Z)
  /\ parallel_accumulate_in Z.sub 0%Z (reverse (tasks 8 (replicate 26 1%Z)))
       8 (replicate 26 1%Z) 5%Z
     = parallel_accumulate Z.sub 0%Z 8 (replicate 26 1%Z) 5%Z.
Proof.
  split; [exact twenty_six_fit|]. split; [apply reverse_Permutation|].
  exact (any_order Z.sub 0%Z _ 8 (replicate 26 1%Z) 5%Z twenty_six_fit
           (reverse_Permutation _)).
Defined.

Lemma parallel_accumulate_correct_witness :
  (forall x y z : Z, (x + (y + z) = x + y + z)%Z)
  /\ (forall x : Z, (x + 0 = x)%Z)
  /\ (Z.of_nat (length (replicate 26 1%Z)) + 24 < 2 ^ 64)%Z
  /\ reverse (tasks 8 (replicate 26 1%Z)) ≡ₚ tasks 8 (replicate 26 1%Z)
  /\ parallel_accumulate_in Z.add 0%Z (reverse (tasks 8 (replicate 26 1%Z)))
       8 (replicate 26 1%Z) 5%Z
     = accumulate Z.add (replicate 26 1%Z) 5%Z.
Proof.
  split; [exact Z.add_assoc|]. split; [exact Z.add_0_r|].
  split; [exact twenty_six_fit|]. split; [apply reverse_Permutation|].
  exact (parallel_accumulate_correct Z.add 0%Z _ 8 (replicate 26 1%Z) 5%Z
           Z.add_assoc Z.add_0_r twenty_six_fit (reverse_Permutation _)).
Defined.

Lemma oops_again_sees_update_witness :
  consistent demo_world
  /\ exists result w',
       oops_again [incr 1] 4 6 demo_world = Ok result w'
       /\ mem w'
          = run_code [S (S (length (mem demo_world)));
                      S (length (mem demo_world))]
              [incr 1] (mem demo_world ++ [4%Z; 6%Z; 4%Z])
       /\ mem w' !! S (length (mem demo_world)) = Some result
       /\ mem w' !! length (mem demo_world) = Some 4%Z
       /\ (forall l, l < length (mem demo_world) ->
             mem w' !! l = mem demo_world !! l)
       /\ completed (length (workers demo_world)) w'
       /\ get (length (objs demo_world)) w' = None
       /\ resolutions (length (workers demo_world)) w' = 1
       /\ consistent w'.
Proof.
  split; [exact demo_consistent|].
  exact (oops_again_sees_update [incr 1] 4 6 demo_world demo_consistent).
Defined.

Lemma f_do_work_joins_all_witness :
  consistent demo_world
  /\ exists w', f_do_work [incr 0] demo_world = Ok tt w'
                /\ length (workers w') = length (workers demo_world) + 20.
Proof.
  split; [exact demo_consistent|].
  destruct (f_do_work_joins_all [incr 0] demo_world demo_consistent)
    as (threads & w1 & w' & _ & Hrun & _ & Hlen & _).
  exists w'. split; [exact Hrun|exact Hlen].
Defined.
